(** * emdofi: uncovering censored e-mail domains

    A shallow embedding of [emdofi/core.py] and the properties of its
    matching engine.  Python values are modelled as follows.

    - [str] is [string], over the characters of [ascii] (the code points
      below 256); a character is a string of length one, so the element type
      of a string is [ascii] and a censoring character, which the code keeps
      as a [str], is a [string].
    - a [dict] is an association list in insertion order ([dict K V]); a
      missing key on subscription is the exception [KeyError].
    - a [set] is a [gset]; [list(set(xs))] is [elements] of the set, whose
      order is left unspecified like the iteration order of a Python set.
    - a raised exception is the [Raise] case of [result].
    - the coroutines of [match] never suspend, so [await gather(...)] is the
      list of their results in order, or the first exception ([gather]).
    - [json.loads] and the opening of the bundled list of domains are
      parameters of the functions that use them. *)

From Stdlib Require Import Ascii String NArith Sorted.
From stdpp Require Import base option list strings gmap.

Local Open Scope string_scope.
Local Open Scope list_scope.

(** ** Exceptions and results *)

Inductive exception : Type :=
  | ValueError (msg : string)
  | TypeError (msg : string)
  | KeyError (key : nat)
  | JSONDecodeError
  | OSError.

Inductive result (A : Type) : Type :=
  | Ok (a : A)
  | Raise (e : exception).
Arguments Ok {A} a.
Arguments Raise {A} e.

Definition bind {A B : Type} (r : result A) (k : A -> result B) : result B :=
  match r with
  | Ok a => k a
  | Raise e => Raise e
  end.

Notation "'let*' x ':=' r 'in' k" := (bind r (fun x => k))
  (at level 10, x name, r at level 100, k at level 200).

(** [asyncio.gather] awaited on the coroutines [f(a)], [a] in [l]. *)
Fixpoint gather {A B : Type} (f : A -> result B) (l : list A) : result (list B) :=
  match l with
  | [] => Ok []
  | a :: l' => let* b := f a in let* bs := gather f l' in Ok (b :: bs)
  end.

(** A call returns a value, or raises. *)
Definition returns {A : Type} (r : result A) : Prop := exists a, r = Ok a.
Definition raises {A : Type} (r : result A) : Prop := exists e, r = Raise e.

(** ** Strings *)

Definition newline : ascii := "010"%char.

(** The string of one character. *)
Definition char (c : ascii) : string := String c EmptyString.

(** [s] between double quotes, for the messages of exceptions. *)
Definition quoted (s : string) : string := String "034" (s ++ char "034").

(** [list(s)]: the characters of [s], each a string of length one. *)
Fixpoint chars (s : string) : list string :=
  match s with
  | EmptyString => []
  | String c s' => char c :: chars s'
  end.

(** [s.count(c)] for a one-character [c]. *)
Fixpoint count (c : ascii) (s : string) : nat :=
  match s with
  | EmptyString => 0
  | String c' s' => (if Ascii.eqb c' c then 1 else 0) + count c s'
  end.

(** [s.split(sep)] for a one-character [sep]: never empty, the pieces
    between the separators in order, empty pieces kept. *)
Fixpoint split (sep : ascii) (s : string) : list string :=
  match s with
  | EmptyString => [EmptyString]
  | String c s' =>
      if Ascii.eqb c sep then EmptyString :: split sep s'
      else match split sep s' with
           | piece :: pieces => String c piece :: pieces
           | [] => [char c]
           end
  end.

(** [enumerate(s)] counting from [x]. *)
Fixpoint enumerate_from (x : nat) (s : string) : list (nat * ascii) :=
  match s with
  | EmptyString => []
  | String c s' => (x, c) :: enumerate_from (S x) s'
  end.

Definition enumerate (s : string) : list (nat * ascii) := enumerate_from 0 s.

(** ** Dictionaries in insertion order *)

Definition dict (K V : Type) : Type := list (K * V).

Section Dict.
Context {K V : Type} (eqb : K -> K -> bool).

(** [d[k]]; [None] stands for the [KeyError]. *)
Fixpoint dict_get (d : dict K V) (k : K) : option V :=
  match d with
  | [] => None
  | (k', v) :: d' => if eqb k' k then Some v else dict_get d' k
  end.

(** [d[k] = v]: an existing key keeps its place (and the key object first
    inserted) and takes the new value, a new key goes last. *)
Fixpoint dict_set (d : dict K V) (k : K) (v : V) : dict K V :=
  match d with
  | [] => [(k, v)]
  | (k', v') :: d' =>
      if eqb k' k then (k', v) :: d' else (k', v') :: dict_set d' k v
  end.

(** [dict(pairs)]. *)
Definition dict_of (pairs : list (K * V)) : dict K V :=
  fold_left (fun d kv => dict_set d (fst kv) (snd kv)) pairs [].
End Dict.

(** ** [scheme_builder] *)

(** [c in censored_chars] where [censored_chars] is a list of [str]. *)
Definition char_in (c : ascii) (censored_chars : list string) : bool :=
  existsb (String.eqb (char c)) censored_chars.

Definition scheme_builder (domain : string) (censored_chars : list string)
  : dict nat ascii :=
  List.filter (fun xc => negb (char_in (snd xc) censored_chars))
              (enumerate domain).

(** ** [CensoredDomain] *)

Module CensoredDomain.
Record t : Type := mk {
  domain : string;
  censored_chars : list string;
  scheme : dict nat ascii
}.

(** The dataclass constructor followed by [__post_init__]. *)
Definition init (domain : string) (censored_chars : list string) : t :=
  {| domain := domain;
     censored_chars := censored_chars;
     scheme := scheme_builder domain censored_chars |}.

(** [__len__] *)
Definition len (self : t) : nat := String.length (domain self).

(** [__repr__] *)
Definition repr (self : t) : string := domain self.
End CensoredDomain.

(** ** The regular expressions of [_re_pattern]

    The fragment of Python's [re] syntax that [_re_pattern] is written in.
    [re.match] looks for a match starting at the first character and does not
    ask it to reach the end of the string; [$] holds at the end of the string
    and also just before a newline that is the last character. *)

Inductive class_item : Type :=
  | Range (lo hi : ascii)
  | Single (c : ascii).

Inductive regex : Type :=
  | Bol                                   (* ^ *)
  | Eol                                   (* $ *)
  | Lit (c : ascii)                       (* an escaped or plain character *)
  | Class (items : list class_item)       (* [...] *)
  | Seq (r1 r2 : regex)
  | Opt (r : regex)                       (* (?:r)? *)
  | UpTo (n : nat) (r : regex)            (* r{0,n} *)
  | Plus (r : regex).                     (* (?:r)+ *)

Definition in_item (c : ascii) (i : class_item) : bool :=
  match i with
  | Range lo hi => (N_of_ascii lo <=? N_of_ascii c)%N && (N_of_ascii c <=? N_of_ascii hi)%N
  | Single c' => Ascii.eqb c c'
  end.

Definition in_class (c : ascii) (items : list class_item) : bool :=
  existsb (in_item c) items.

(** A matcher takes the rest [s] of the subject, whether [s] starts at the
    beginning of the subject ([bos]), and a continuation [k] for what follows;
    it answers whether some match at the front of [s] leaves a rest that [k]
    accepts.  Greedy operators try the longer alternative first, as the
    backtracking engine does. *)
Definition continuation : Type := bool -> string -> bool.
Definition matcher : Type := bool -> string -> continuation -> bool.

(** [m{0,n}] *)
Fixpoint upto (m : matcher) (n : nat) (bos : bool) (s : string)
              (k : continuation) : bool :=
  match n with
  | 0 => k bos s
  | S n' => m bos s (fun bos' s' => upto m n' bos' s' k) || k bos s
  end.

(** [m+], at most [fuel] times: an iteration that consumes nothing cannot
    help, so as many iterations as [s] has characters, and one, are enough. *)
Fixpoint plus (m : matcher) (fuel : nat) (bos : bool) (s : string)
              (k : continuation) : bool :=
  match fuel with
  | 0 => false
  | S fuel' => m bos s (fun bos' s' => plus m fuel' bos' s' k || k bos' s')
  end.

Fixpoint rmatch (r : regex) (bos : bool) (s : string) (k : continuation)
                {struct r} : bool :=
  match r with
  | Bol => bos && k bos s
  | Eol =>
      match s with
      | EmptyString => k bos s
      | String c EmptyString => Ascii.eqb c newline && k bos s
      | _ => false
      end
  | Lit c =>
      match s with
      | String c' s' => Ascii.eqb c' c && k false s'
      | EmptyString => false
      end
  | Class items =>
      match s with
      | String c' s' => in_class c' items && k false s'
      | EmptyString => false
      end
  | Seq r1 r2 => rmatch r1 bos s (fun bos' s' => rmatch r2 bos' s' k)
  | Opt r1 => rmatch r1 bos s k || k bos s
  | UpTo n r1 => upto (rmatch r1) n bos s k
  | Plus r1 => plus (rmatch r1) (S (String.length s)) bos s k
  end.

(** [bool(re.match(pattern, string))] *)
Definition rematch (pattern : regex) (s : string) : bool :=
  rmatch pattern true s (fun _ _ => true).

Definition alnum : regex := Class [Range "a" "z"; Range "0" "9"].
Definition alnum_hyphen : regex := Class [Range "a" "z"; Range "0" "9"; Single "-"].

(** [[a-z0-9](?:[a-z0-9-]{0,61}[a-z0-9])?], a label before a dot. *)
Definition label_re : regex :=
  Seq alnum (Opt (Seq (UpTo 61 alnum_hyphen) alnum)).

(** [[a-z0-9][a-z0-9-]{0,61}[a-z0-9]], the last label. *)
Definition last_label_re : regex :=
  Seq alnum (Seq (UpTo 61 alnum_hyphen) alnum).

(** [(?:label\.)+last_label] *)
Definition labels_re : regex :=
  Seq (Plus (Seq label_re (Lit "."))) last_label_re.

(** [^(?:[a-z0-9](?:[a-z0-9-]{0,61}[a-z0-9])?\.)+[a-z0-9][a-z0-9-]{0,61}[a-z0-9]$] *)
Definition _re_pattern : regex := Seq Bol (Seq labels_re Eol).

(** ** [SingleDomain] *)

Module SingleDomain.
Record t : Type := mk {
  domain : string;
  valid : bool;
  lenght : nat;
  scheme : dict nat ascii
}.

(** The dataclass constructor followed by [__post_init__]; [valid] is the
    keyword argument, [None] by default. *)
Definition init (domain : string) (valid : option bool) : t :=
  let valid :=
    match valid with
    | None =>
        if ((0 <? count "." domain) && (count "." domain <? 4))%nat
        then rematch _re_pattern domain
        else false
    | Some v => v
    end in
  {| domain := domain;
     valid := valid;
     lenght := String.length domain;
     scheme := scheme_builder domain [] |}.

(** [__len__] *)
Definition len (self : t) : nat := lenght self.

(** The dataclass [__eq__]: the declared fields, as a tuple. *)
Definition eqb (a b : t) : bool :=
  String.eqb (domain a) (domain b) && Bool.eqb (valid a) (valid b).

(** The [for ... else] of [match]: [break] on the first position that
    differs falls through to [return False]; the [else] branch, taken when
    the items are exhausted, returns [True]. *)
Fixpoint match_items (self_scheme : dict nat ascii)
                     (items : list (nat * ascii)) : result bool :=
  match items with
  | [] => Ok true
  | (key, value) :: items' =>
      match dict_get Nat.eqb self_scheme key with
      | None => Raise (KeyError key)
      | Some c =>
          if negb (Ascii.eqb c value) then Ok false
          else match_items self_scheme items'
      end
  end.

Definition match_ (self : t) (censored_domain : CensoredDomain.t) : result bool :=
  if (CensoredDomain.len censored_domain =? lenght self)%nat
  then match_items (scheme self) (CensoredDomain.scheme censored_domain)
  else Ok false.

(** [__repr__] *)
Definition repr (self : t) : string := domain self.

(** [__hash__]: the hash of the domain string, [hash_str] being the
    built-in [hash] on [str]. *)
Definition hash (hash_str : string -> Z) (self : t) : Z := hash_str (domain self).
End SingleDomain.

(** ** Binding the arguments of a call

    What a [def] accepts: its positional-or-keyword parameters, a
    var-positional parameter ([*name]), keyword-only parameters and a
    var-keyword parameter ([**name]).  The receiver [self] of a method call is
    bound by the call itself and is not listed. *)

Record signature : Type := {
  positional : list string;
  var_positional : option string;
  keyword_only : list string;
  var_keyword : option string
}.

(** A keyword argument binds a parameter that has that name and can be
    passed by keyword, or is collected by [**name]; the name of a [*name]
    parameter cannot be passed by keyword. *)
Definition accepts_keyword (sig : signature) (name : string) : bool :=
  existsb (String.eqb name) (positional sig ++ keyword_only sig)
  || bool_decide (is_Some (var_keyword sig)).

(** The values the var-positional parameter receives, or the [TypeError] of
    a call that does not fit the signature; [fname] is the qualified name of
    the function, which the message starts with. *)
Definition bind_arguments {A : Type} (fname : string) (sig : signature)
    (args : list A) (kwargs : list (string * A)) : result (list A) :=
  match List.find (fun kw => negb (accepts_keyword sig (fst kw))) kwargs with
  | Some kw =>
      Raise (TypeError (fname ++ "() got an unexpected keyword argument '" ++ fst kw ++ "'"))
  | None =>
      if (length (positional sig) <? length args)%nat
         && negb (bool_decide (is_Some (var_positional sig)))
      then Raise (TypeError (fname ++ "() takes too many positional arguments"))
      else if (length args <? length (positional sig))%nat
              && negb (forallb (fun p => existsb (String.eqb p) (map fst kwargs))
                               (drop (length args) (positional sig)))
      then Raise (TypeError (fname ++ "() missing required positional arguments"))
      else Ok (drop (length (positional sig)) args)
  end.

(** ** [DomainFinder] *)

(** A censoring-characters argument: a [str], or an iterable of [str]. *)
Inductive chars_arg : Type :=
  | AStr (s : string)
  | AIter (l : list string).

(** [list(chars)] *)
Definition list_of (chars_ : chars_arg) : list string :=
  match chars_ with
  | AStr s => chars s
  | AIter l => l
  end.

(** [censoring_chars or "*"], for an argument that may be [None]. *)
Definition or_star (censoring_chars : option chars_arg) : chars_arg :=
  match censoring_chars with
  | None | Some (AStr EmptyString) | Some (AIter []) => AStr "*"
  | Some a => a
  end.

(** A query: a [str], a [CensoredDomain], or a value of another type. *)
Inductive query : Type :=
  | QStr (s : string)
  | QCensored (c : CensoredDomain.t)
  | QOther.

(** What [DomainFinder.match] returns: the matching domains, or with
    [full=True] the dictionary from every domain to its outcome. *)
Inductive match_output : Type :=
  | Matches (found : list SingleDomain.t)
  | Report (results : dict SingleDomain.t bool).

(** A readable text stream: what its [read()] gives. *)
Record TextIO : Type := { read : result string }.

Module DomainFinder.
Record t : Type := mk {
  domains : list SingleDomain.t;
  censoring_chars : list string;
  keep_only_valid_domains : bool;
  _x : nat
}.

(** [def change_censoring_chars(self, *censoring_chars)] *)
Definition change_censoring_chars_sig : signature :=
  {| positional := [];
     var_positional := Some "censoring_chars";
     keyword_only := [];
     var_keyword := None |}.

(** The body of [change_censoring_chars]: the value it stores in
    [self.censoring_chars], from the tuple its [*censoring_chars] received.
    An empty tuple is falsy and is replaced by the string ["*"], which
    being a [str] is then wrapped in a list.  The order of [list(set(...))]
    is not fixed by the code; [elements] gives one order, and the properties
    below speak of membership, of repetitions and of lists up to a
    permutation only. *)
Definition change_censoring_chars (censoring_chars : list chars_arg) : list string :=
  let censoring_chars :=
    match censoring_chars with
    | [] => [AStr "*"]
    | _ => censoring_chars
    end in
  let result := flat_map list_of censoring_chars in
  elements (list_to_set result : gset string).

(** The method, as a change of the object. *)
Definition set_censoring_chars (self : t) (censoring_chars : list chars_arg) : t :=
  {| domains := domains self;
     censoring_chars := change_censoring_chars censoring_chars;
     keep_only_valid_domains := keep_only_valid_domains self;
     _x := _x self |}.

(** The [else] branch of [__post_init__]: strings are wrapped into
    [SingleDomain]s, [SingleDomain]s are taken as they are, and with
    [keep_only_valid_domains] only the entries whose [valid] is [True]
    stay. *)
Definition post_init_domains (domains : list (string + SingleDomain.t))
    (keep_only_valid_domains : bool) : list SingleDomain.t :=
  let domains :=
    map (fun d => match d with
                  | inl d => SingleDomain.init d None
                  | inr d => d
                  end) domains in
  if keep_only_valid_domains
  then List.filter (fun domain => SingleDomain.valid domain) domains
  else domains.

(** The dataclass constructor [DomainFinder(domains, censoring_chars,
    keep_only_valid_domains)] followed by [__post_init__], which calls
    [self.change_censoring_chars(censoring_chars=...)]. *)
Definition init (domains : option (list (string + SingleDomain.t)))
    (censoring_chars : option chars_arg) (keep_only_valid_domains : bool)
  : result t :=
  match domains with
  | None =>
      Raise (ValueError (quoted "domains" ++ " argument in " ++ quoted "DomainFinder"
                         ++ " must be a list of str"))
  | Some domains =>
      let domains := post_init_domains domains keep_only_valid_domains in
      let* star_args :=
        bind_arguments "DomainFinder.change_censoring_chars" change_censoring_chars_sig
          [] [("censoring_chars", or_star censoring_chars)] in
      Ok {| domains := domains;
            censoring_chars := change_censoring_chars star_args;
            keep_only_valid_domains := keep_only_valid_domains;
            _x := 0 |}
  end.

(** [__len__] *)
Definition len (self : t) : nat := length (domains self).

(** [__iter__]: the domains it yields, in order. *)
Definition iter (self : t) : list SingleDomain.t := domains self.

(** [match(self, query, full=False)]: a [str] query is cut after its last
    [@] and censored by the characters of the finder; every domain of the
    catalog is matched, the outcomes are zipped with the catalog into a
    dictionary, and the dictionary or its keys of value [True] are
    returned. *)
Definition match_ (self : t) (query : query) (full : bool) : result match_output :=
  let* query :=
    match query with
    | QStr query =>
        Ok (CensoredDomain.init (List.last (split "@" query) EmptyString)
                                (censoring_chars self))
    | QCensored query => Ok query
    | QOther => Raise (TypeError (quoted "query" ++ " must be a " ++ quoted "str" ++ " or "
                             ++ quoted "CensoredDomain" ++ " object"))
    end in
  let* match_all :=
    gather (fun domain => SingleDomain.match_ domain query) (domains self) in
  let results := dict_of SingleDomain.eqb (zip (domains self) match_all) in
  if full then Ok (Report results)
  else Ok (Matches (map fst (List.filter (fun kv => snd kv) results))).

Section Loading.
(** [json.loads], for the documents that are arrays of strings: the value
    it returns, or the exception of a document that does not parse.  An array
    that holds a value of another type is outside this model (there
    [SingleDomain(data)] may raise on its own, before the constructor). *)
Variable json_loads : string -> result (list string).
(** [open(_default_domains_path, "r", encoding="utf-8")] *)
Variable open_default_domains : result TextIO.

(** The [if] of [loads]: the raw strings read from [strcontent]. *)
Definition loads_datas (strcontent : string) : result (list string) :=
  if String.prefix "[" strcontent
  then json_loads strcontent
  else Ok (split newline strcontent).

Definition loads (strcontent : string) (censoring_chars : chars_arg) : result t :=
  let* datas := loads_datas strcontent in
  let datas := map (fun data => SingleDomain.init data None) datas in
  init (Some (map inr datas)) (Some censoring_chars) true.

Definition load (readobj : TextIO) (censoring_chars : chars_arg) : result t :=
  let* strcontent := read readobj in
  loads strcontent censoring_chars.

Definition load_default (censoring_chars : chars_arg) : result t :=
  let* _r := open_default_domains in
  load _r censoring_chars.
End Loading.
End DomainFinder.

(** The module-level [match(query, censored_chars)]. *)
Definition emdofi_match (json_loads : string -> result (list string))
    (open_default_domains : result TextIO)
    (query : string) (censored_chars : chars_arg) : result match_output :=
  let* df := DomainFinder.load_default json_loads open_default_domains censored_chars in
  DomainFinder.match_ df (QStr query) false.

(** ** The command line ([__main__.py]) *)

Module Main.
Definition DEFAULT : string := "*?".

(** The namespace that [parse_args] returns. *)
Record Namespace : Type := { domain : string; censored : string }.

(** [parser.parse_args()] on a command line with the positional [domain]
    and, optionally, [-c CC]. *)
Definition parse_args (domain : string) (censored : option string) : Namespace :=
  {| domain := domain;
     censored := match censored with Some cc => cc | None => DEFAULT end |}.

(** The items a [for] loop sees in what [match] returned, which is also
    truthy exactly when there is one. *)
Definition items (found : match_output) : list SingleDomain.t :=
  match found with
  | Matches found => found
  | Report results => map fst results
  end.

(** The [if found: ... else: ...] of [main]: the strings it prints, one for
    each call of [print]. *)
Definition report (args : Namespace) (found : match_output) : list string :=
  match items found with
  | [] => ["[x] No domains matching " +:+ domain args +:+ " were found"]
  | doms =>
      ["[+] Domains matching for " +:+ domain args +:+ ":"]
      ++ map (fun dom => "[-] " +:+ SingleDomain.repr dom) doms
      ++ ["[=] EMDOFI, Made by aet" +:+ String newline "    https://twitter.com/meakaaet"]
  end.

(** [main()], from the parsed arguments on: what was printed, and how the
    call ended. *)
Definition main (json_loads : string -> result (list string))
    (open_default_domains : result TextIO) (args : Namespace)
  : list string * result unit :=
  match emdofi_match json_loads open_default_domains
          (domain args) (AStr (censored args)) with
  | Ok found => (report args found, Ok tt)
  | Raise e => ([], Raise e)
  end.
End Main.

(** * The vocabulary of the properties

    What the properties below are stated with: notions of the specification
    (the characters occurring in strings, the lines of a text, the label
    grammar of domains, a pattern censoring a domain), the objects of the
    examples, and the words of a regular expression. *)

(** The exception of a call that passes [censoring_chars] by keyword to
    [change_censoring_chars]. *)
Definition unexpected_keyword : exception :=
  TypeError ("DomainFinder.change_censoring_chars() got an unexpected keyword "
             +:+ "argument 'censoring_chars'").

(** The characters the claim speaks of: those occurring in one of the input
    strings, each as a string of length one. *)
Definition occurs_in (x : string) (inputs : list string) : Prop :=
  exists input i c, In input inputs /\ String.get i input = Some c /\ x = char c.

(** [sep.join(pieces)] for a one-character [sep]. *)
Fixpoint join (sep : ascii) (pieces : list string) : string :=
  match pieces with
  | [] => EmptyString
  | [piece] => piece
  | piece :: pieces' => (piece ++ String sep (join sep pieces'))%string
  end.

(** Python's whitespace, and the content without its leading whitespace
    (what starts a trimmed copy of the content starts this one). *)
Definition is_space (c : ascii) : bool :=
  existsb (Ascii.eqb c) [" "; "009"; "010"; "011"; "012"; "013"]%char.

Fixpoint lstrip (s : string) : string :=
  match s with
  | String c s' => if is_space c then lstrip s' else s
  | EmptyString => EmptyString
  end.

(** A JSON array after a space. *)
Definition leading_space_json : string := " [" ++ quoted "gmail.com" ++ "]".

Section FirstOccurrences.
Context {K : Type} (eqb : K -> K -> bool).

(** The keys of a list in the order of their first occurrence, a later key
    equal to an earlier one being dropped. *)
Definition seen (acc : list K) (k : K) : bool :=
  existsb (fun k' => eqb k' k) acc.

(** [acc] followed by the first occurrences in [l] of the keys that [acc]
    lacks. *)
Definition first_occurrences_from (acc l : list K) : list K :=
  fold_left (fun acc k => if seen acc k then acc else acc ++ [k]) l acc.

Definition first_occurrences (l : list K) : list K :=
  first_occurrences_from [] l.

End FirstOccurrences.

(** The [SingleDomain]s that the constructor builds: the derived attributes
    are those of the domain string. *)
Definition constructed (self : SingleDomain.t) : Prop :=
  SingleDomain.lenght self = String.length (SingleDomain.domain self)
  /\ SingleDomain.scheme self = scheme_builder (SingleDomain.domain self) [].

(** [p] is [d] with some of its positions replaced by censoring characters. *)
Inductive censoring (censored_chars : list string) : string -> string -> Prop :=
  | censoring_end : censoring censored_chars EmptyString EmptyString
  | censoring_keep (c : ascii) (d p : string) :
      censoring censored_chars d p ->
      censoring censored_chars (String c d) (String c p)
  | censoring_hide (c x : ascii) (d p : string) :
      char_in x censored_chars = true ->
      censoring censored_chars d p ->
      censoring censored_chars (String c d) (String x p).

(** The outcome of [domain.match(query)], [False] standing for a raise. *)
Definition accepts (query : CensoredDomain.t) (domain : SingleDomain.t) : bool :=
  match SingleDomain.match_ domain query with
  | Ok outcome => outcome
  | Raise _ => false
  end.

(** The domains of the examples. *)
Definition gmail : SingleDomain.t := SingleDomain.init "gmail.com" None.
Definition yahoo : SingleDomain.t := SingleDomain.init "yahoo.com" None.

(** A catalog in which [gmail.com] stands twice. *)
Definition repeated_catalog : DomainFinder.t :=
  {| DomainFinder.domains := [gmail; yahoo; gmail];
     DomainFinder.censoring_chars := ["*"];
     DomainFinder.keep_only_valid_domains := true;
     DomainFinder._x := 0 |}.

(** The label grammar in the words of the specification: the labels are the
    pieces between the dots; a label has 1 to 63 characters (the last one 2
    to 63), all lowercase letters, digits or hyphens, and neither starts nor
    ends with a hyphen.  [is_alnum]: a lowercase letter or a digit. *)
Definition is_alnum (c : ascii) : bool :=
  ((97 <=? nat_of_ascii c) && (nat_of_ascii c <=? 122)
   || (48 <=? nat_of_ascii c) && (nat_of_ascii c <=? 57))%nat.

(** The hyphen. *)
Definition is_hyphen (c : ascii) : bool := Ascii.eqb c "-".

(** A label of at least [shortest] characters. *)
Definition label_ok (shortest : nat) (label : string) : bool :=
  let cs := list_ascii_of_string label in
  ((shortest <=? length cs) && (length cs <=? 63))%nat
  && forallb (fun c => is_alnum c || is_hyphen c) cs
  && match cs with c :: _ => negb (is_hyphen c) | [] => false end
  && match rev cs with c :: _ => negb (is_hyphen c) | [] => false end.

(** Every piece between the dots is a label, the last one of two
    characters or more. *)
Definition label_grammar (domain : string) : bool :=
  match rev (split "." domain) with
  | last_label :: labels => label_ok 2 last_label && forallb (label_ok 1) labels
  | [] => false
  end.

(** Validity as the specification states it: one to three dots, and the
    label grammar. *)
Definition valid_domain (domain : string) : bool :=
  ((1 <=? count "." domain) && (count "." domain <=? 3))%nat
  && label_grammar domain.

(** Validity as the code decides it. *)
Definition validator (domain : string) : bool :=
  SingleDomain.valid (SingleDomain.init domain None).

(** [gmail.com] followed by a newline. *)
Definition gmail_newline : string := "gmail.com" ++ char newline.

(** [flag bos w]: whether the subject is still at its beginning after the
    word [w] was consumed. *)
Definition flag (bos : bool) (w : string) : bool :=
  match w with
  | EmptyString => bos
  | String _ _ => false
  end.

(** The words of a list, one after the other. *)
Fixpoint concat_all (ws : list string) : string :=
  match ws with
  | [] => EmptyString
  | w :: ws' => w +:+ concat_all ws'
  end.

(** The words of an expression without assertions; [^] and [$] consume
    nothing and look at the context, they are treated where they stand in
    [_re_pattern]. *)
Fixpoint lang (r : regex) (w : string) : Prop :=
  match r with
  | Bol | Eol => False
  | Lit c => w = char c
  | Class items => exists c, in_class c items = true /\ w = char c
  | Seq r1 r2 => exists w1 w2, w = w1 +:+ w2 /\ lang r1 w1 /\ lang r2 w2
  | Opt r1 => w = EmptyString \/ lang r1 w
  | UpTo n r1 =>
      exists ws, length ws <= n /\ Forall (lang r1) ws /\ w = concat_all ws
  | Plus r1 =>
      exists w1 ws, Forall (lang r1) (w1 :: ws) /\ w = concat_all (w1 :: ws)
  end.

(** Whether an expression may match without consuming a character. *)
Fixpoint nullable (r : regex) : bool :=
  match r with
  | Bol | Eol | Opt _ | UpTo _ _ => true
  | Lit _ | Class _ => false
  | Seq r1 r2 => nullable r1 && nullable r2
  | Plus r1 => nullable r1
  end.

(** No assertion, and no repetition of an expression that matches the empty
    word. *)
Fixpoint simple (r : regex) : bool :=
  match r with
  | Bol | Eol => false
  | Lit _ | Class _ => true
  | Seq r1 r2 => simple r1 && simple r2
  | Opt r1 | UpTo _ r1 => simple r1
  | Plus r1 => simple r1 && negb (nullable r1)
  end.

(** A matcher decides a set of words when it succeeds exactly on the
    subjects that start with one of them and whose rest the continuation
    accepts. *)
Definition adequate (m : matcher) (L : string -> Prop) : Prop :=
  forall bos s k,
    m bos s k = true <->
    exists w s', s = w +:+ s' /\ L w /\ k (flag bos w) s' = true.

(** A word of at least two characters: an alphanumeric, at most 61
    alphanumerics or hyphens, an alphanumeric. *)
Definition framed (w : string) : Prop :=
  exists c1 mid c2,
    w = String c1 (mid +:+ char c2)
    /\ is_alnum c1 = true /\ is_alnum c2 = true
    /\ String.length mid <= 61
    /\ forallb (fun c => is_alnum c || is_hyphen c) (list_ascii_of_string mid) = true.

(** A word of one alphanumeric. *)
Definition single (w : string) : Prop :=
  exists c, is_alnum c = true /\ w = char c.

(** Each label followed by a dot. *)
Definition dotted (labels : list string) : list string :=
  map (fun label => label +:+ ".") labels.

(** The catalog of the end-to-end example of the specification. *)
Definition gmial : SingleDomain.t := SingleDomain.init "gmial.com" None.

Definition three_domains : DomainFinder.t :=
  {| DomainFinder.domains := [gmail; gmial; yahoo];
     DomainFinder.censoring_chars := ["*"];
     DomainFinder.keep_only_valid_domains := true;
     DomainFinder._x := 0 |}.

(** A pattern whose [domain] attribute was replaced after its construction
    keeps the scheme of the old string: here [match] raises [KeyError]. *)
Definition stale_pattern : CensoredDomain.t :=
  {| CensoredDomain.domain := "gbc";
     CensoredDomain.censored_chars := ["*"];
     CensoredDomain.scheme := scheme_builder "g****.**m" ["*"] |}.

(** How many positions of [s] hold a censoring character. *)
Definition censored_count (s : string) (censored_chars : list string) : nat :=
  length (List.filter (fun c => char_in c censored_chars) (list_ascii_of_string s)).

(** A character that a domain of the grammar may hold: a lowercase letter,
    a digit, a hyphen or a dot. *)
Definition domain_char (c : ascii) : bool :=
  is_alnum c || is_hyphen c || Ascii.eqb c ".".

(** * Properties *)

(** ** Schemes *)

Lemma get_length (s : string) (i : nat) :
  (i < String.length s)%nat <-> String.get i s <> None.
Proof.
  revert i; induction s as [|c s IH]; intros i; simpl.
  - split; [lia | congruence].
  - destruct i as [|i]; [split; [congruence | lia] |].
    rewrite <- IH. lia.
Qed.

Lemma in_enumerate_from (x : nat) (s : string) (k : nat) (c : ascii) :
  In (k, c) (enumerate_from x s) <-> (x <= k)%nat /\ String.get (k - x) s = Some c.
Proof.
  revert x; induction s as [|c' s IH]; intros x; simpl.
  - split; [tauto | intros [_ H]; discriminate].
  - rewrite IH. split.
    + intros [H | [Hle Hget]].
      * injection H as -> ->. split; [lia |]. by rewrite Nat.sub_diag.
      * split; [lia |]. replace (k - x) with (S (k - S x)) by lia. done.
    + intros [Hle Hget]. destruct (k - x) as [|n] eqn:E.
      * left. injection Hget as ->. f_equal. lia.
      * right. split; [lia |]. replace (k - S x) with n by lia. done.
Qed.

Lemma dict_get_enumerate_from (g : ascii -> bool) (x : nat) (s : string) (k : nat) :
  dict_get Nat.eqb (List.filter (fun xc => g (snd xc)) (enumerate_from x s)) k =
    if (k <? x)%nat then None
    else match String.get (k - x) s with
         | Some c => if g c then Some c else None
         | None => None
         end.
Proof.
  revert x; induction s as [|c s IH]; intros x; simpl.
  - by destruct (k <? x)%nat.
  - specialize (IH (S x)).
    destruct (lt_eq_lt_dec k x) as [[Hlt | ->] | Hgt].
    + destruct (Nat.ltb_spec k x); [| lia].
      destruct (Nat.ltb_spec k (S x)); [| lia].
      destruct (g c); simpl; [| done].
      by destruct (Nat.eqb_spec x k); [lia |].
    + rewrite Nat.ltb_irrefl, Nat.sub_diag.
      destruct (Nat.ltb_spec x (S x)); [| lia].
      destruct (g c); simpl; [| done].
      by rewrite Nat.eqb_refl.
    + destruct (Nat.ltb_spec k x); [lia |].
      destruct (Nat.ltb_spec k (S x)); [lia |].
      replace (k - x) with (S (k - S x)) by lia.
      destruct (g c); simpl; [| done].
      by destruct (Nat.eqb_spec x k); [lia |].
Qed.

(** The scheme as a function of the position: the character at a position,
    unless it is a censoring character. *)
Lemma scheme_builder_get (domain : string) (censored_chars : list string) (k : nat) :
  dict_get Nat.eqb (scheme_builder domain censored_chars) k =
    match String.get k domain with
    | Some c => if char_in c censored_chars then None else Some c
    | None => None
    end.
Proof.
  unfold scheme_builder, enumerate.
  rewrite (dict_get_enumerate_from (fun c => negb (char_in c censored_chars))).
  simpl. rewrite Nat.sub_0_r.
  destruct (String.get k domain) as [c|]; [| done].
  by destruct (char_in c censored_chars).
Qed.

Lemma scheme_builder_in (domain : string) (censored_chars : list string)
    (k : nat) (c : ascii) :
  In (k, c) (scheme_builder domain censored_chars) <->
  dict_get Nat.eqb (scheme_builder domain censored_chars) k = Some c.
Proof.
  rewrite scheme_builder_get. unfold scheme_builder, enumerate.
  rewrite filter_In, in_enumerate_from, Nat.sub_0_r. simpl. split.
  - intros [[_ ->] Hc]. by destruct (char_in c censored_chars).
  - destruct (String.get k domain) as [c'|]; [| done].
    destruct (char_in c' censored_chars) eqn:E; [done |].
    intros [= ->]. rewrite E. split; [split; [lia | done] | done].
Qed.

(** The scheme of a reference domain is dense. *)
Lemma scheme_builder_dense (domain : string) (k : nat) :
  dict_get Nat.eqb (scheme_builder domain []) k = String.get k domain.
Proof.
  rewrite scheme_builder_get. by destruct (String.get k domain).
Qed.

(** ** [SingleDomain.match] *)

Lemma match_items_true (self_scheme : dict nat ascii) (items : list (nat * ascii)) :
  SingleDomain.match_items self_scheme items = Ok true <->
  forall key value, In (key, value) items ->
    dict_get Nat.eqb self_scheme key = Some value.
Proof.
  induction items as [|[key value] items IH]; simpl.
  - split; [by intros _ ? ? [] | done].
  - destruct (dict_get Nat.eqb self_scheme key) as [c|] eqn:Hget.
    + destruct (Ascii.eqb_spec c value) as [-> | Hne]; simpl.
      * rewrite IH. split.
        -- intros H k v [[= <- <-] | Hin]; [done | by apply H].
        -- intros H k v Hin. apply H. by right.
      * split; [done |]. intros H.
        specialize (H key value (or_introl eq_refl)). congruence.
    + split; [done |]. intros H.
      specialize (H key value (or_introl eq_refl)). congruence.
Qed.

Lemma match_items_returns (self_scheme : dict nat ascii) (items : list (nat * ascii)) :
  (forall key value, In (key, value) items ->
     dict_get Nat.eqb self_scheme key <> None) ->
  returns (SingleDomain.match_items self_scheme items).
Proof.
  induction items as [|[key value] items IH]; simpl; intros H.
  - by exists true.
  - destruct (dict_get Nat.eqb self_scheme key) as [c|] eqn:Hget.
    + destruct (negb (Ascii.eqb c value)); [by exists false |].
      apply IH. intros k v Hin. apply (H k v). by right.
    + by destruct (H key value (or_introl eq_refl)).
Qed.

(** C1. A reference domain [D] matches a censored pattern [P] exactly when
    they have the same length and, at every position of [P]'s scheme, [D]'s
    scheme holds the same character; positions that [P]'s scheme lacks are
    not looked at, and a different length rejects whatever the characters. *)
Theorem SingleDomain_match_iff (d : string) (v : option bool)
    (p : string) (censored_chars : list string) :
  let D := SingleDomain.init d v in
  let P := CensoredDomain.init p censored_chars in
  (SingleDomain.match_ D P = Ok true <->
     SingleDomain.len D = CensoredDomain.len P /\
     forall position c,
       dict_get Nat.eqb (CensoredDomain.scheme P) position = Some c ->
       dict_get Nat.eqb (SingleDomain.scheme D) position = Some c)
  /\ (SingleDomain.len D <> CensoredDomain.len P ->
      SingleDomain.match_ D P = Ok false).
Proof.
  intros D P. unfold SingleDomain.match_, SingleDomain.len.
  destruct (Nat.eqb_spec (CensoredDomain.len P) (SingleDomain.lenght D)) as [Heq | Hne].
  - split; [| intros H; by destruct H].
    rewrite match_items_true. split.
    + intros H. split; [done |]. intros k c Hk. apply H.
      by apply scheme_builder_in.
    + intros [_ H] k c Hin. apply H. by apply scheme_builder_in.
  - split; [| done]. split; [done |]. intros [H _]. by destruct Hne.
Qed.

(** C7. The length test comes before the loop over the pattern's scheme: a
    pattern of another length is rejected without any subscription of the
    domain's scheme, and for equal lengths every position of the pattern's
    scheme is a key of the domain's scheme, so [match] returns a boolean and
    never raises [KeyError]. *)
Theorem SingleDomain_match_never_raises (d : string) (v : option bool)
    (p : string) (censored_chars : list string) :
  returns (SingleDomain.match_ (SingleDomain.init d v)
                               (CensoredDomain.init p censored_chars))
  /\ (forall (self : SingleDomain.t) (censored_domain : CensoredDomain.t),
        CensoredDomain.len censored_domain <> SingleDomain.lenght self ->
        SingleDomain.match_ self censored_domain = Ok false).
Proof.
  split.
  - unfold SingleDomain.match_. simpl.
    destruct (Nat.eqb_spec (CensoredDomain.len (CensoredDomain.init p censored_chars))
                           (String.length d)) as [Heq | Hne]; [| by exists false].
    apply match_items_returns. intros k c Hin.
    apply scheme_builder_in in Hin. rewrite scheme_builder_get in Hin.
    rewrite scheme_builder_dense. apply get_length.
    unfold CensoredDomain.len in Heq. simpl in Heq. rewrite <- Heq.
    apply get_length. by destruct (String.get k p).
  - intros self cd Hne. unfold SingleDomain.match_.
    by destruct (Nat.eqb_spec (CensoredDomain.len cd) (SingleDomain.lenght self)).
Qed.

(** ** Constructing a [DomainFinder] *)

(** The call [self.change_censoring_chars(censoring_chars=a)] does not bind:
    the only parameter of that name is var-positional. *)
Lemma change_censoring_chars_keyword (a : chars_arg) :
  bind_arguments "DomainFinder.change_censoring_chars" DomainFinder.change_censoring_chars_sig
    [] [("censoring_chars", a)] = Raise unexpected_keyword.
Proof. reflexivity. Qed.

(** Passed by position, the same values are collected by [*censoring_chars]. *)
Lemma change_censoring_chars_positional (args : list chars_arg) :
  bind_arguments "DomainFinder.change_censoring_chars" DomainFinder.change_censoring_chars_sig
    args [] = Ok args.
Proof. unfold bind_arguments. simpl. by destruct args. Qed.

Lemma DomainFinder_init_Some (domains : list (string + SingleDomain.t))
    (censoring_chars : option chars_arg) (keep_only_valid_domains : bool) :
  DomainFinder.init (Some domains) censoring_chars keep_only_valid_domains
  = Raise unexpected_keyword.
Proof. reflexivity. Qed.

Lemma DomainFinder_loads_raises (json_loads : string -> result (list string))
    (strcontent : string) (censoring_chars : chars_arg) :
  raises (DomainFinder.loads json_loads strcontent censoring_chars).
Proof.
  unfold DomainFinder.loads.
  destruct (DomainFinder.loads_datas json_loads strcontent) as [datas | e]; simpl.
  - by exists unexpected_keyword.
  - by exists e.
Qed.

Lemma DomainFinder_load_raises (json_loads : string -> result (list string))
    (readobj : TextIO) (censoring_chars : chars_arg) :
  raises (DomainFinder.load json_loads readobj censoring_chars).
Proof.
  unfold DomainFinder.load. destruct (read readobj) as [strcontent | e]; simpl.
  - apply DomainFinder_loads_raises.
  - by exists e.
Qed.

Lemma DomainFinder_load_default_raises (json_loads : string -> result (list string))
    (open_default_domains : result TextIO) (censoring_chars : chars_arg) :
  raises (DomainFinder.load_default json_loads open_default_domains censoring_chars).
Proof.
  unfold DomainFinder.load_default.
  destruct open_default_domains as [_r | e]; simpl.
  - apply DomainFinder_load_raises.
  - by exists e.
Qed.

(** C2. A call of [change_censoring_chars] that passes [censoring_chars] by
    keyword does not bind, the parameter of that name being var-positional
    (passed by position the value would bind).  So whatever list is passed
    as [domains], the constructor raises the [TypeError] of that call, and
    [loads], [load], [load_default] and the module-level [match], which all
    end in the constructor, raise and return nothing. *)
Theorem DomainFinder_construction_raises :
  (forall a : chars_arg,
     bind_arguments "DomainFinder.change_censoring_chars" DomainFinder.change_censoring_chars_sig
       [] [("censoring_chars", a)] = Raise unexpected_keyword
     /\ bind_arguments "DomainFinder.change_censoring_chars" DomainFinder.change_censoring_chars_sig
          [a] [] = Ok [a])
  /\ (forall domains censoring_chars keep_only_valid_domains,
     DomainFinder.init (Some domains) censoring_chars keep_only_valid_domains
     = Raise unexpected_keyword)
  /\ (forall json_loads strcontent censoring_chars,
        raises (DomainFinder.loads json_loads strcontent censoring_chars))
  /\ (forall json_loads readobj censoring_chars,
        raises (DomainFinder.load json_loads readobj censoring_chars))
  /\ (forall json_loads open_default_domains censoring_chars,
        raises (DomainFinder.load_default json_loads open_default_domains
                                          censoring_chars))
  /\ (forall json_loads open_default_domains query censored_chars,
        raises (emdofi_match json_loads open_default_domains query censored_chars)).
Proof.
  split.
  { intros a. split; [apply change_censoring_chars_keyword |].
    apply change_censoring_chars_positional. }
  split; [exact DomainFinder_init_Some |].
  split; [exact DomainFinder_loads_raises |].
  split; [exact DomainFinder_load_raises |].
  split; [exact DomainFinder_load_default_raises |].
  intros json_loads open_default_domains query censored_chars.
  unfold emdofi_match.
  destruct (DomainFinder_load_default_raises json_loads open_default_domains
              censored_chars) as [e ->].
  by exists e.
Qed.

(** C8. Construction fails both without a catalog and with an empty one:
    [domains=None] raises the [ValueError] of the explicit test, and
    [domains=[]] raises the [TypeError] of the call that follows the
    normalisation of the catalog. *)
Theorem DomainFinder_init_missing_or_empty
    (censoring_chars : option chars_arg) (keep_only_valid_domains : bool) :
  DomainFinder.init None censoring_chars keep_only_valid_domains
    = Raise (ValueError (quoted "domains" ++ " argument in " ++ quoted "DomainFinder"
                         ++ " must be a list of str"))
  /\ DomainFinder.init (Some []) censoring_chars keep_only_valid_domains
    = Raise unexpected_keyword
  /\ raises (DomainFinder.init None censoring_chars keep_only_valid_domains)
  /\ raises (DomainFinder.init (Some []) censoring_chars keep_only_valid_domains).
Proof.
  split; [reflexivity |]. split; [reflexivity |].
  split; eexists; reflexivity.
Qed.

(** ** The catalog kept by [__post_init__] *)

(** C10. [SingleDomain(d, valid=True)] is valid for every string [d], the
    grammar not being consulted; with [keep_only_valid_domains] the catalog
    keeps exactly the entries whose [valid] field is [True], so every entry
    kept has that field set, and an entry whose string the validator rejects
    is kept when it was built with [valid=True]. *)
Theorem keep_only_valid_tests_the_field :
  (forall d, SingleDomain.valid (SingleDomain.init d (Some true)) = true)
  /\ (forall domains entry,
        In entry (DomainFinder.post_init_domains domains true) ->
        SingleDomain.valid entry = true)
  /\ (forall d,
        DomainFinder.post_init_domains [inr (SingleDomain.init d (Some true))] true
        = [SingleDomain.init d (Some true)])
  /\ SingleDomain.valid (SingleDomain.init "not a domain" None) = false
  /\ In (SingleDomain.init "not a domain" (Some true))
        (DomainFinder.post_init_domains
           [inl "gmail.com"; inr (SingleDomain.init "not a domain" (Some true))] true).
Proof.
  split; [done |]. split.
  { intros domains entry Hin. unfold DomainFinder.post_init_domains in Hin.
    by apply filter_In in Hin as [_ ?]. }
  split; [done |]. split; [by vm_compute |].
  vm_compute. right. by left.
Qed.

(** ** Censoring characters *)

Lemma in_chars (x : string) (s : string) :
  In x (chars s) <-> exists i c, String.get i s = Some c /\ x = char c.
Proof.
  induction s as [|c' s IH]; simpl.
  - split; [done | by intros (i & c & ? & _)].
  - rewrite IH. split.
    + intros [<- | (i & c & Hget & ->)].
      * by exists 0, c'.
      * by exists (S i), c.
    + intros ([|i] & c & Hget & ->).
      * left. by injection Hget as ->.
      * right. by exists i, c.
Qed.

Lemma elem_of_change_censoring_chars (x : string) (censoring_chars : list chars_arg) :
  censoring_chars <> [] ->
  x ∈ DomainFinder.change_censoring_chars censoring_chars <->
  exists chars_, In chars_ censoring_chars /\ In x (list_of chars_).
Proof.
  intros Hne. unfold DomainFinder.change_censoring_chars.
  rewrite elem_of_elements, elem_of_list_to_set, list_elem_of_In.
  destruct censoring_chars; [done |]. apply in_flat_map.
Qed.

(** Called with no argument at all, which [__post_init__] never does, the
    method falls back on the default ["*"], which occurs in no input. *)
Lemma change_censoring_chars_of_nothing :
  "*" ∈ DomainFinder.change_censoring_chars (map AStr [])
  /\ ~ occurs_in "*" [].
Proof.
  split; [by vm_compute; left |].
  by intros (input & _ & _ & [] & _).
Qed.

(** C5.  For every sequence of one or more input strings the censoring
    characters are exactly the single characters that occur in one of them,
    without repetition: every input string is decomposed into its
    characters, so ["ab"] and ["c"] give [a], [b] and [c] and never the token
    ["ab"].  (Without any argument the result is the default ["*"].) *)
Theorem change_censoring_chars_decomposes (input : string) (inputs : list string)
    (x : string) :
  (x ∈ DomainFinder.change_censoring_chars (map AStr (input :: inputs)) <->
     occurs_in x (input :: inputs))
  /\ NoDup (DomainFinder.change_censoring_chars (map AStr (input :: inputs)))
  /\ (list_to_set (DomainFinder.change_censoring_chars [AStr "ab"; AStr "c"])
        = ({[ "a"; "b"; "c" ]} : gset string)
      /\ "ab" ∉ DomainFinder.change_censoring_chars [AStr "ab"; AStr "c"])
  /\ DomainFinder.change_censoring_chars [] = ["*"].
Proof.
  split; [| split; [| split; [split |]]].
  - rewrite elem_of_change_censoring_chars by done. unfold occurs_in. split.
    + intros (a & Hin & Hx). apply in_map_iff in Hin as (s & <- & Hs).
      simpl in Hx. apply in_chars in Hx as (i & c & Hget & ->).
      by exists s, i, c.
    + intros (s & i & c & Hs & Hget & ->). exists (AStr s). split.
      * by apply in_map.
      * simpl. apply in_chars. by exists i, c.
  - unfold DomainFinder.change_censoring_chars. apply NoDup_elements.
  - unfold DomainFinder.change_censoring_chars. simpl.
    apply set_eq. intros y.
    rewrite elem_of_list_to_set, elem_of_elements.
    rewrite !elem_of_union, !elem_of_singleton, elem_of_empty.
    unfold char. tauto.
  - unfold DomainFinder.change_censoring_chars. simpl.
    rewrite elem_of_elements.
    rewrite !elem_of_union, !elem_of_singleton, elem_of_empty.
    by intros [?|[?|[?|[]]]].
  - by vm_compute.
Qed.

(** ** The two source shapes of [loads] *)

Lemma split_cons (sep : ascii) (s : string) :
  exists piece pieces, split sep s = piece :: pieces.
Proof.
  destruct s as [|c s]; simpl; [by eexists _, _ |].
  destruct (Ascii.eqb c sep); [by eexists _, _ |].
  destruct (split sep s); by eexists _, _.
Qed.

Lemma join_cons (sep : ascii) (piece piece' : string) (pieces : list string) :
  join sep (piece :: piece' :: pieces)
  = (piece ++ String sep (join sep (piece' :: pieces)))%string.
Proof. reflexivity. Qed.

Lemma join_split (sep : ascii) (s : string) : join sep (split sep s) = s.
Proof.
  induction s as [|c s IH]; [done |].
  cbn [split].
  destruct (split_cons sep s) as (piece & pieces & Hs). rewrite Hs in *.
  destruct (Ascii.eqb_spec c sep) as [-> | Hne].
  - by rewrite join_cons, IH.
  - destruct pieces as [|piece' pieces].
    + cbn in *. by rewrite IH.
    + rewrite join_cons in *. by rewrite <- IH.
Qed.

Lemma split_pieces (sep : ascii) (s : string) :
  Forall (fun piece => count sep piece = 0) (split sep s).
Proof.
  induction s as [|c s IH]; simpl; [by repeat constructor |].
  destruct (Ascii.eqb_spec c sep) as [-> | Hne]; [by constructor |].
  destruct (split sep s) as [|piece pieces]; simpl.
  - repeat constructor. simpl. by destruct (Ascii.eqb_spec c sep).
  - inversion IH; subst. constructor; [| done].
    simpl. by destruct (Ascii.eqb_spec c sep).
Qed.

Lemma split_length (sep : ascii) (s : string) :
  length (split sep s) = S (count sep s).
Proof.
  induction s as [|c s IH]; [done |]. simpl.
  destruct (Ascii.eqb c sep); simpl; [by rewrite IH |].
  destruct (split sep s); simpl in *; lia.
Qed.

Lemma split_no_sep (sep : ascii) (t : string) :
  count sep t = 0 -> split sep t = [t].
Proof.
  induction t as [|c t IH]; [done |]. simpl.
  destruct (Ascii.eqb c sep); [done |]. intros H. by rewrite IH.
Qed.

Lemma prefix_bracket (s : string) :
  String.prefix "[" s = true <-> exists rest, s = String "[" rest.
Proof.
  destruct s as [|c rest].
  - split; [done | by intros [? ?]].
  - change (String.prefix "[" (String c rest))
      with (if Ascii.ascii_dec "[" c then String.prefix "" rest else false).
    destruct (Ascii.ascii_dec "[" c) as [<- | Hne].
    + split; [by exists rest | by destruct rest].
    + split; [done | intros [rest' [= -> _]]; by destruct Hne].
Qed.

(** The claim of C9 fails for a content with a space before its [[]: the
    trimmed content starts with [[], and the content is split into lines,
    whatever [json.loads] would have made of it. *)
Lemma loads_does_not_trim :
  String.prefix "[" (lstrip leading_space_json) = true
  /\ (forall json_loads,
        DomainFinder.loads_datas json_loads leading_space_json
        = Ok [leading_space_json])
  /\ DomainFinder.loads_datas (fun _ => Ok ["gmail.com"]) leading_space_json
     <> Ok ["gmail.com"].
Proof. split; [done |]. split; [done |]. by vm_compute. Qed.

(** C9, amended.  [loads] reads its input as a JSON document exactly when
    the content itself, untrimmed, starts with [[]; otherwise the strings it
    reads are the lines of the content: the pieces between its newlines, one
    more than there are newlines, none holding a newline and giving the
    content back when joined by newlines. *)
Theorem loads_source_shape (json_loads : string -> result (list string))
    (strcontent : string) :
  ((exists rest, strcontent = String "[" rest) ->
     DomainFinder.loads_datas json_loads strcontent = json_loads strcontent)
  /\ ((forall rest, strcontent <> String "[" rest) ->
        exists lines,
          DomainFinder.loads_datas json_loads strcontent = Ok lines
          /\ join newline lines = strcontent
          /\ Forall (fun line => count newline line = 0) lines
          /\ length lines = S (count newline strcontent)).
Proof.
  unfold DomainFinder.loads_datas. split.
  - intros Hyes. by apply prefix_bracket in Hyes as ->.
  - intros Hno. destruct (String.prefix "[" strcontent) eqn:Hp.
    { apply prefix_bracket in Hp as [rest ->]. by destruct (Hno rest). }
    exists (split newline strcontent).
    split; [done |]. split; [apply join_split |].
    split; [apply split_pieces | apply split_length].
Qed.

(** ** Dictionaries built from a list of keys *)

Section FirstOccurrencesFacts.
Context {K V : Type} (eqb : K -> K -> bool).
Local Abbreviation seen := (seen eqb).
Local Abbreviation first_occurrences_from := (first_occurrences_from eqb).
Local Abbreviation first_occurrences := (first_occurrences eqb).

Lemma first_occurrences_from_length (acc l : list K) :
  length (first_occurrences_from acc l) <= length acc + length l.
Proof.
  revert acc; induction l as [|k l IH]; intros acc; simpl; [lia |].
  unfold first_occurrences_from in *. simpl.
  destruct (seen acc k).
  - specialize (IH acc). lia.
  - specialize (IH (acc ++ [k])). rewrite length_app in IH. simpl in IH. lia.
Qed.

(** Keys on which [eqb] is equality: the objects the code builds. *)
Variable wf : K -> Prop.
Hypothesis eqb_eq : forall k k', wf k -> wf k' -> eqb k' k = true <-> k' = k.

Lemma seen_elem_of (acc : list K) (k : K) :
  Forall wf acc -> wf k -> seen acc k = true <-> k ∈ acc.
Proof.
  intros Hacc Hk. unfold seen. rewrite existsb_exists, list_elem_of_In.
  rewrite Forall_forall in Hacc. split.
  - intros (k' & Hin & He). apply eqb_eq in He as ->; [done | done |].
    apply Hacc. by apply list_elem_of_In.
  - intros Hin. exists k. split; [done |]. apply eqb_eq; [done | done | done].
Qed.

Lemma first_occurrences_from_NoDup (acc l : list K) :
  Forall wf acc -> Forall wf l -> NoDup (acc ++ l) ->
  first_occurrences_from acc l = acc ++ l.
Proof.
  revert acc; induction l as [|k l IH]; intros acc Hacc Hl Hnd.
  - by rewrite app_nil_r.
  - inversion Hl as [|? ? Hk Hl']; subst.
    unfold first_occurrences_from in *. simpl.
    destruct (seen acc k) eqn:Hs.
    + apply seen_elem_of in Hs; [| done | done].
      apply NoDup_app in Hnd as (_ & Hdisj & _).
      destruct (Hdisj k Hs). by left.
    + rewrite IH.
      * by rewrite <- app_assoc.
      * apply Forall_app. split; [done | by constructor].
      * done.
      * by rewrite <- app_assoc.
Qed.

Lemma first_occurrences_from_spec (acc l : list K) :
  Forall wf acc -> Forall wf l -> NoDup acc ->
  NoDup (first_occurrences_from acc l)
  /\ forall k, k ∈ first_occurrences_from acc l <-> k ∈ acc \/ k ∈ l.
Proof.
  revert acc; induction l as [|k l IH]; intros acc Hacc Hl Hnd.
  - split; [done |]. intros k. rewrite elem_of_nil. tauto.
  - inversion Hl as [|? ? Hk Hl']; subst.
    unfold first_occurrences_from in *. simpl.
    destruct (seen acc k) eqn:Hs.
    + apply seen_elem_of in Hs; [| done | done].
      destruct (IH acc Hacc Hl' Hnd) as [Hnd' Hin]. split; [done |].
      intros k'. rewrite Hin, elem_of_cons.
      split; [tauto |]. intros [? | [-> | ?]]; tauto.
    + assert (k ∉ acc) as Hnot.
      { intros Hin. apply seen_elem_of in Hin; [congruence | done | done]. }
      destruct (IH (acc ++ [k])) as [Hnd' Hin].
      * apply Forall_app. split; [done | by constructor].
      * done.
      * apply NoDup_app. split; [done |]. split; [| apply NoDup_singleton].
        intros x Hx Hx'. apply list_elem_of_singleton in Hx' as ->. done.
      * split; [done |]. intros k'.
        rewrite Hin, elem_of_app, list_elem_of_singleton, elem_of_cons. tauto.
Qed.

Variable b : K -> V.

Lemma dict_set_first_occurrence (acc : list K) (k : K) :
  Forall wf acc -> wf k ->
  dict_set eqb (map (fun k => (k, b k)) acc) k (b k)
  = map (fun k => (k, b k)) (if seen acc k then acc else acc ++ [k]).
Proof.
  intros Hacc Hk. induction acc as [|k' acc IH]; [done |].
  inversion Hacc as [|? ? Hk' Hacc']; subst. simpl.
  destruct (eqb k' k) eqn:He; simpl.
  - apply eqb_eq in He as ->; done.
  - rewrite IH by done. unfold seen. by destruct (existsb _ acc).
Qed.

Lemma dict_of_first_occurrences_from (acc l : list K) :
  Forall wf acc -> Forall wf l ->
  fold_left (fun d kv => dict_set eqb d (fst kv) (snd kv))
            (map (fun k => (k, b k)) l) (map (fun k => (k, b k)) acc)
  = map (fun k => (k, b k)) (first_occurrences_from acc l).
Proof.
  revert acc; induction l as [|k l IH]; intros acc Hacc Hl; [done |].
  inversion Hl as [|? ? Hk Hl']; subst. simpl.
  rewrite dict_set_first_occurrence by done.
  unfold first_occurrences_from. simpl. apply IH; [| done].
  destruct (seen acc k); [done |].
  apply Forall_app. split; [done | by constructor].
Qed.

(** The dictionary [dict(zip(l, [b(k) for k in l]))]. *)
Lemma dict_of_first_occurrences (l : list K) :
  Forall wf l ->
  dict_of eqb (zip l (map b l))
  = map (fun k => (k, b k)) (first_occurrences l).
Proof.
  intros Hl. unfold dict_of, first_occurrences.
  rewrite <- (dict_of_first_occurrences_from [] l) by done.
  f_equal. clear Hl. induction l as [|k l IH]; [done |].
  simpl. by rewrite IH.
Qed.

End FirstOccurrencesFacts.

Lemma gather_Ok {A B : Type} (f : A -> result B) (b : A -> B) (l : list A) :
  Forall (fun a => f a = Ok (b a)) l -> gather f l = Ok (map b l).
Proof.
  induction 1 as [|a l Ha _ IH]; [done |]. simpl. by rewrite Ha, IH.
Qed.

(** ** [DomainFinder.match] *)

Lemma init_constructed (d : string) (v : option bool) :
  constructed (SingleDomain.init d v).
Proof. by split. Qed.

Lemma constructed_eqb (k k' : SingleDomain.t) :
  constructed k -> constructed k' -> SingleDomain.eqb k' k = true <-> k' = k.
Proof.
  intros [Hl Hs] [Hl' Hs']. unfold SingleDomain.eqb. split.
  - intros H. apply andb_prop in H as [Hd Hv].
    apply String.eqb_eq in Hd. apply Bool.eqb_prop in Hv.
    destruct k, k'; simpl in *. subst. done.
  - intros ->. by rewrite String.eqb_refl, Bool.eqb_reflx.
Qed.

Lemma match_constructed_true (self : SingleDomain.t) (p : string)
    (censored_chars : list string) :
  constructed self ->
  SingleDomain.match_ self (CensoredDomain.init p censored_chars) = Ok true <->
  String.length p = String.length (SingleDomain.domain self)
  /\ forall k c,
       dict_get Nat.eqb (scheme_builder p censored_chars) k = Some c ->
       String.get k (SingleDomain.domain self) = Some c.
Proof.
  intros [Hl Hs]. unfold SingleDomain.match_, CensoredDomain.len. simpl.
  rewrite Hl, Hs.
  destruct (Nat.eqb_spec (String.length p) (String.length (SingleDomain.domain self)))
    as [Heq | Hne].
  - rewrite match_items_true. split.
    + intros H. split; [done |]. intros k c Hk.
      rewrite <- scheme_builder_dense. apply H. by apply scheme_builder_in.
    + intros [_ H] k c Hin. rewrite scheme_builder_dense. apply H.
      by apply scheme_builder_in.
  - split; [done | by intros [? _]].
Qed.

Lemma match_constructed_returns (self : SingleDomain.t) (p : string)
    (censored_chars : list string) :
  constructed self ->
  SingleDomain.match_ self (CensoredDomain.init p censored_chars)
  = Ok (accepts (CensoredDomain.init p censored_chars) self).
Proof.
  intros [Hl Hs].
  assert (returns (SingleDomain.match_ self (CensoredDomain.init p censored_chars)))
    as [outcome Hr]; [| unfold accepts; by rewrite Hr].
  unfold SingleDomain.match_, CensoredDomain.len. simpl. rewrite Hl, Hs.
  destruct (Nat.eqb_spec (String.length p) (String.length (SingleDomain.domain self)))
    as [Heq | Hne]; [| by exists false].
  apply match_items_returns. intros k c Hin.
  apply scheme_builder_in in Hin. rewrite scheme_builder_get in Hin.
  rewrite scheme_builder_dense. apply get_length. rewrite <- Heq.
  apply get_length. by destruct (String.get k p).
Qed.

Lemma censoring_visible (censored_chars : list string) (d p : string) :
  censoring censored_chars d p ->
  String.length p = String.length d
  /\ forall k c,
       dict_get Nat.eqb (scheme_builder p censored_chars) k = Some c ->
       String.get k d = Some c.
Proof.
  induction 1 as [| c d p _ [IHl IHv] | c x d p Hx _ [IHl IHv]].
  - split; [done |]. intros k c. by rewrite scheme_builder_get.
  - split; [simpl; lia |]. intros k c'. rewrite scheme_builder_get.
    destruct k as [|k]; simpl.
    + by destruct (char_in c censored_chars).
    + intros Hk. apply IHv. by rewrite scheme_builder_get.
  - split; [simpl; lia |]. intros k c'. rewrite scheme_builder_get.
    destruct k as [|k]; simpl.
    + by rewrite Hx.
    + intros Hk. apply IHv. by rewrite scheme_builder_get.
Qed.

Lemma filter_accepting {K : Type} (b : K -> bool) (l : list K) :
  map fst (List.filter (fun kv : K * bool => snd kv) (map (fun k => (k, b k)) l))
  = List.filter b l.
Proof.
  induction l as [|k l IH]; [done |]. simpl.
  destruct (b k); simpl; by rewrite IH.
Qed.

Lemma filter_only {K : Type} (b : K -> bool) (l : list K) (x : K) :
  NoDup l -> x ∈ l -> b x = true ->
  (forall y, y ∈ l -> y <> x -> b y = false) ->
  List.filter b l = [x].
Proof.
  induction l as [|k l IH]; intros Hnd Hin Hx Hothers.
  - by apply elem_of_nil in Hin.
  - apply NoDup_cons in Hnd as [Hk Hnd]. simpl.
    assert (forall l', (forall y, y ∈ l' -> b y = false) -> List.filter b l' = [])
      as Hnone.
    { induction l' as [|y l' IH']; [done |]. intros H. simpl.
      rewrite H by left. apply IH'. intros z Hz. apply H. by right. }
    apply elem_of_cons in Hin as [-> | Hin].
    + rewrite Hx. f_equal. apply Hnone. intros y Hy.
      apply Hothers; [by right |]. by intros ->.
    + rewrite (Hothers k); [| left | by intros ->].
      apply IH; [done | done | done |]. intros y Hy. apply Hothers. by right.
Qed.

(** The dictionary of results that both modes of [match] start from. *)
Lemma match_results (self : DomainFinder.t) (p : string)
    (censored_chars : list string) (full : bool) :
  Forall constructed (DomainFinder.domains self) ->
  let query := CensoredDomain.init p censored_chars in
  let results :=
    map (fun domain => (domain, accepts query domain))
        (first_occurrences SingleDomain.eqb (DomainFinder.domains self)) in
  DomainFinder.match_ self (QCensored query) full
  = Ok (if full then Report results
        else Matches (map fst (List.filter (fun kv => snd kv) results))).
Proof.
  intros Hc query results. unfold DomainFinder.match_. simpl.
  rewrite (gather_Ok _ (accepts query)).
  - simpl.
    rewrite (dict_of_first_occurrences SingleDomain.eqb constructed)
      by (done || (intros k k'; apply constructed_eqb)).
    by destruct full.
  - eapply Forall_impl; [exact Hc |]. intros domain Hd.
    by apply match_constructed_returns.
Qed.

(** A query string without [@] is the pattern it spells, censored by the
    characters of the finder. *)
Lemma match_str (self : DomainFinder.t) (p : string) (full : bool) :
  count "@" p = 0 ->
  DomainFinder.match_ self (QStr p) full
  = DomainFinder.match_ self
      (QCensored (CensoredDomain.init p (DomainFinder.censoring_chars self))) full.
Proof.
  intros Hp. unfold DomainFinder.match_. cbn [bind].
  by rewrite (split_no_sep "@" p Hp).
Qed.

(** C3. Let [D] be a domain of the catalog and [P] a pattern made from [D]
    by replacing some of its positions by censoring characters.  When no
    other entry of the catalog has the length of [D] and the characters of
    [D] at the positions that [P] shows, matching [P] returns the list [[D]]
    and nothing else; so does matching the string of [P] when it holds no
    [@] and the censoring characters are those of the finder. *)
Theorem match_uncovers (self : DomainFinder.t) (D : SingleDomain.t)
    (p : string) (censored_chars : list string) :
  let P := CensoredDomain.init p censored_chars in
  Forall constructed (DomainFinder.domains self) ->
  In D (DomainFinder.domains self) ->
  censoring censored_chars (SingleDomain.domain D) p ->
  (forall E, In E (DomainFinder.domains self) -> E <> D ->
     ~ (SingleDomain.len E = SingleDomain.len D
        /\ forall position c,
             dict_get Nat.eqb (CensoredDomain.scheme P) position = Some c ->
             String.get position (SingleDomain.domain E)
             = String.get position (SingleDomain.domain D))) ->
  DomainFinder.match_ self (QCensored P) false = Ok (Matches [D])
  /\ (count "@" p = 0 -> DomainFinder.censoring_chars self = censored_chars ->
      DomainFinder.match_ self (QStr p) false = Ok (Matches [D])).
Proof.
  intros P Hc HD Hcens Hothers.
  assert (DomainFinder.match_ self (QCensored P) false = Ok (Matches [D])) as Hmatch;
    [| split; [done | intros Hp <-; by rewrite match_str]].
  pose proof (match_results self p censored_chars false Hc) as Hm.
  cbv zeta in Hm. change (CensoredDomain.init p censored_chars) with P in Hm.
  rewrite Hm, filter_accepting. do 2 f_equal.
  assert (forall E, In E (DomainFinder.domains self) -> constructed E) as Hc'.
  { intros E HE. apply list_elem_of_In in HE. revert E HE.
    by apply Forall_forall. }
  destruct (censoring_visible _ _ _ Hcens) as [Hlen Hvis].
  destruct (first_occurrences_from_spec SingleDomain.eqb constructed
              constructed_eqb [] (DomainFinder.domains self))
    as [Hnd Hin]; [done | done | constructor |].
  apply filter_only.
  - exact Hnd.
  - apply Hin. right. by apply list_elem_of_In.
  - unfold accepts.
    assert (SingleDomain.match_ D P = Ok true) as ->; [| done].
    apply match_constructed_true; [by apply Hc' | done].
  - intros E HE Hne. apply Hin in HE as [HE | HE]; [by apply elem_of_nil in HE |].
    apply list_elem_of_In in HE.
    destruct (accepts P E) eqn:Hacc; [| done].
    destruct (Hothers E HE Hne).
    pose proof (match_constructed_returns E p censored_chars (Hc' E HE)) as HmE.
    change (CensoredDomain.init p censored_chars) with P in HmE.
    rewrite Hacc in HmE.
    apply match_constructed_true in HmE as [HlenE HvisE]; [| by apply Hc'].
    destruct (Hc' E HE) as [HlE _], (Hc' D HD) as [HlD _].
    unfold SingleDomain.len. split; [congruence |].
    intros k c Hk. simpl in Hk. by rewrite (HvisE k c Hk), (Hvis k c Hk).
Qed.

Lemma match_uncovers_gmail :
  DomainFinder.match_ repeated_catalog
    (QCensored (CensoredDomain.init "g****.**m" ["*"])) false
  = Ok (Matches [gmail])
  /\ DomainFinder.match_ repeated_catalog (QStr "g****.**m") false
  = Ok (Matches [gmail]).
Proof.
  assert (count "@" "g****.**m" = 0) as Hno_at by reflexivity.
  assert (DomainFinder.censoring_chars repeated_catalog = ["*"]) as Hchars
    by reflexivity.
  destruct (match_uncovers repeated_catalog gmail "g****.**m" ["*"])
    as [Hpattern Hstr]; [| | | | split; [exact Hpattern | exact (Hstr Hno_at Hchars)]].
  - repeat constructor.
  - simpl. by left.
  - simpl.
    apply censoring_keep. do 4 (apply censoring_hide; [reflexivity |]).
    apply censoring_keep. do 2 (apply censoring_hide; [reflexivity |]).
    apply censoring_keep. apply censoring_end.
  - intros E [<- | [<- | [<- | []]]] Hne [_ Hv]; try done.
    specialize (Hv 0 "g"%char eq_refl). discriminate Hv.
Defined.

(** The claim of C6 fails on a catalog with a repeated entry: the report has
    one entry for the two occurrences of [gmail.com], two entries for three
    candidates. *)
Lemma report_of_repeated_catalog :
  DomainFinder.match_ repeated_catalog (QStr "g****.**m") true
  = Ok (Report [(gmail, true); (yahoo, false)])
  /\ length [(gmail, true); (yahoo, false)] <> DomainFinder.len repeated_catalog.
Proof. split; [by vm_compute | by vm_compute]. Qed.

(** C6, amended.  The full report holds one entry for each distinct
    candidate of the catalog, in the order of the first occurrences, whose
    value is the outcome of matching that candidate; two candidates equal by
    the dataclass equality share one entry, so the report is never larger
    than the catalog, and it has the size and the order of the catalog when
    the catalog repeats no entry.  The match-only result is the keys of the
    same report with the value [True]. *)
Theorem full_report_entries (self : DomainFinder.t) (p : string)
    (censored_chars : list string) :
  let P := CensoredDomain.init p censored_chars in
  Forall constructed (DomainFinder.domains self) ->
  exists results,
    DomainFinder.match_ self (QCensored P) true = Ok (Report results)
    /\ map fst results = first_occurrences SingleDomain.eqb (DomainFinder.domains self)
    /\ (forall D outcome, In (D, outcome) results ->
          In D (DomainFinder.domains self) /\ SingleDomain.match_ D P = Ok outcome)
    /\ length results <= DomainFinder.len self
    /\ (NoDup (DomainFinder.domains self) ->
          map fst results = DomainFinder.domains self
          /\ length results = DomainFinder.len self)
    /\ DomainFinder.match_ self (QCensored P) false
       = Ok (Matches (map fst (List.filter (fun kv => snd kv) results))).
Proof.
  intros P Hc.
  pose proof (match_results self p censored_chars true Hc) as Hfull.
  pose proof (match_results self p censored_chars false Hc) as Honly.
  cbv zeta in Hfull, Honly.
  change (CensoredDomain.init p censored_chars) with P in Hfull, Honly.
  eexists. split; [exact Hfull |].
  assert (forall E, In E (DomainFinder.domains self) -> constructed E) as Hc'.
  { intros E HE. apply list_elem_of_In in HE. revert E HE.
    by apply Forall_forall. }
  destruct (first_occurrences_from_spec SingleDomain.eqb constructed
              constructed_eqb [] (DomainFinder.domains self))
    as [Hnd Hin]; [done | done | constructor |].
  assert (map fst (map (fun domain => (domain, accepts P domain))
                       (first_occurrences SingleDomain.eqb (DomainFinder.domains self)))
          = first_occurrences SingleDomain.eqb (DomainFinder.domains self)) as Hkeys.
  { rewrite map_map. simpl. apply map_id. }
  split; [exact Hkeys |]. split; [| split; [| split]].
  - intros D outcome HD. apply in_map_iff in HD as (D' & [= <- <-] & HD').
    apply list_elem_of_In, Hin in HD' as [HD' | HD']; [by apply elem_of_nil in HD' |].
    apply list_elem_of_In in HD'. split; [done |].
    by apply match_constructed_returns, Hc'.
  - rewrite length_map.
    apply (first_occurrences_from_length SingleDomain.eqb [] (DomainFinder.domains self)).
  - intros Hnodup.
    assert (first_occurrences SingleDomain.eqb (DomainFinder.domains self)
            = DomainFinder.domains self) as Hfo.
    { apply (first_occurrences_from_NoDup SingleDomain.eqb constructed
               constructed_eqb []); done. }
    split; [by rewrite Hkeys |]. by rewrite length_map, Hfo.
  - exact Honly.
Qed.

Lemma full_report_of_repeated_catalog :
  exists results,
    DomainFinder.match_ repeated_catalog
      (QCensored (CensoredDomain.init "g****.**m" ["*"])) true = Ok (Report results)
    /\ map fst results = [gmail; yahoo]
    /\ length results <= 3.
Proof.
  destruct (full_report_entries repeated_catalog "g****.**m" ["*"])
    as (results & Hr & Hk & _ & Hl & _).
  - repeat constructor.
  - exists results. split; [exact Hr |]. split; [exact Hk | exact Hl].
Defined.

(** ** The validator *)

(** C4.  The validator agrees with the grammar on the examples of the
    specification and rejects every string without a dot or with more than
    three; but it accepts ["gmail.com"] followed by a newline, which the
    grammar rejects: [$] also holds before a final newline. *)
Theorem validator_accepts_final_newline :
  validator gmail_newline = true
  /\ valid_domain gmail_newline = false
  /\ validator "gmail.com" = true
  /\ validator "sub.example.co.uk" = true
  /\ validator "nodotdomain" = false
  /\ validator ".leadingdot.com" = false
  /\ validator "-bad.com" = false
  /\ validator "a..b.com" = false
  /\ (forall domain,
        count "." domain = 0 \/ 3 < count "." domain -> validator domain = false).
Proof.
  repeat (split; [by vm_compute |]).
  intros domain Hdots. unfold validator, SingleDomain.init. simpl.
  destruct Hdots as [-> | Hdots]; [done |].
  destruct (Nat.ltb_spec (count "." domain) 4); [lia |].
  by rewrite andb_false_r.
Qed.

(** ** The words a regular expression matches *)

Lemma append_nil_r (s : string) : s +:+ "" = s.
Proof.
  induction s as [|c s IH]; [done |].
  change (String c (s +:+ "") = String c s). by rewrite IH.
Qed.

Lemma append_assoc (s t u : string) : (s +:+ t) +:+ u = s +:+ (t +:+ u).
Proof.
  induction s as [|c s IH]; [done |].
  change (String c ((s +:+ t) +:+ u) = String c (s +:+ (t +:+ u))). by rewrite IH.
Qed.

Lemma length_append (s t : string) :
  String.length (s +:+ t) = String.length s + String.length t.
Proof.
  induction s as [|c s IH]; [done |].
  change (S (String.length (s +:+ t)) = S (String.length s + String.length t)).
  by rewrite IH.
Qed.

Lemma flag_append (bos : bool) (w1 w2 : string) :
  flag (flag bos w1) w2 = flag bos (w1 +:+ w2).
Proof. destruct w1; [done |]. by destruct w2. Qed.

Lemma adequate_lit (c : ascii) : adequate (rmatch (Lit c)) (lang (Lit c)).
Proof.
  intros bos s k. simpl. split.
  - destruct s as [|c' s]; [done |]. intros H. apply andb_prop in H as [Hc Hk].
    apply Ascii.eqb_eq in Hc as ->. by exists (char c), s.
  - intros (w & s' & -> & -> & Hk). change (Ascii.eqb c c && k false s' = true).
    by rewrite Ascii.eqb_refl.
Qed.

Lemma adequate_class (items : list class_item) :
  adequate (rmatch (Class items)) (lang (Class items)).
Proof.
  intros bos s k. simpl. split.
  - destruct s as [|c' s]; [done |]. intros H. apply andb_prop in H as [Hc Hk].
    exists (char c'), s. split; [done |]. split; [by exists c' | done].
  - intros (w & s' & -> & (c & Hc & ->) & Hk).
    change (in_class c items && k false s' = true). by rewrite Hc.
Qed.

Lemma adequate_seq (m1 m2 : matcher) (L1 L2 : string -> Prop) :
  adequate m1 L1 -> adequate m2 L2 ->
  adequate (fun bos s k => m1 bos s (fun bos' s' => m2 bos' s' k))
           (fun w => exists w1 w2, w = w1 +:+ w2 /\ L1 w1 /\ L2 w2).
Proof.
  unfold adequate. intros H1 H2 bos s k. rewrite H1. split.
  - intros (w1 & s1 & -> & Hw1 & Hk). apply H2 in Hk as (w2 & s2 & -> & Hw2 & Hk).
    exists (w1 +:+ w2), s2. rewrite append_assoc. split; [done |].
    split; [by exists w1, w2 |]. by rewrite <- flag_append.
  - intros (w & s' & -> & (w1 & w2 & -> & Hw1 & Hw2) & Hk).
    exists w1, (w2 +:+ s'). rewrite append_assoc. split; [done |].
    split; [done |]. apply H2. exists w2, s'. by rewrite flag_append.
Qed.

Lemma adequate_opt (m : matcher) (L : string -> Prop) :
  adequate m L ->
  adequate (fun bos s k => m bos s k || k bos s)
           (fun w => w = EmptyString \/ L w).
Proof.
  unfold adequate. intros Hm bos s k. rewrite orb_true_iff, Hm. split.
  - intros [(w & s' & -> & Hw & Hk) | Hk].
    + exists w, s'. auto.
    + exists "", s. auto.
  - intros (w & s' & -> & [-> | Hw] & Hk); [by right |].
    left. by exists w, s'.
Qed.

Lemma adequate_upto (m : matcher) (L : string -> Prop) (n : nat) :
  adequate m L ->
  adequate (upto m n)
    (fun w => exists ws, length ws <= n /\ Forall L ws /\ w = concat_all ws).
Proof.
  unfold adequate. intros Hm. induction n as [|n IH]; intros bos s k; simpl.
  - split.
    + intros Hk. exists "", s. split; [done |]. split; [by exists [] | done].
    + intros (w & s' & -> & (ws & Hl & _ & ->) & Hk).
      destruct ws; [done | simpl in Hl; lia].
  - rewrite orb_true_iff, Hm. split.
    + intros [(w1 & s1 & -> & Hw1 & Hk) | Hk].
      * apply IH in Hk as (w & s' & -> & (ws & Hl & Hws & ->) & Hk).
        exists (w1 +:+ concat_all ws), s'. rewrite append_assoc.
        split; [done |]. rewrite <- flag_append. split; [| done].
        exists (w1 :: ws). split; [simpl; lia |]. split; [by constructor | done].
      * exists "", s. split; [done |]. split; [| done].
        exists []. split; [simpl; lia | done].
    + intros (w & s' & -> & (ws & Hl & Hws & ->) & Hk).
      destruct ws as [|w1 ws]; [by right |]. left.
      inversion Hws; subst. simpl in Hl.
      exists w1, (concat_all ws +:+ s'). simpl. rewrite append_assoc.
      split; [done |]. split; [done |]. apply IH.
      exists (concat_all ws), s'. split; [done |]. rewrite flag_append.
      split; [| done]. exists ws. split; [lia | done].
Qed.

Lemma adequate_plus (m : matcher) (L : string -> Prop)
    (fuel : nat) (bos : bool) (s : string) (k : continuation) :
  adequate m L -> (forall w, L w -> w <> EmptyString) ->
  String.length s < fuel ->
  plus m fuel bos s k = true <->
  exists w s', s = w +:+ s'
    /\ (exists w1 ws, Forall L (w1 :: ws) /\ w = concat_all (w1 :: ws))
    /\ k (flag bos w) s' = true.
Proof.
  unfold adequate. intros Hm Hne. revert bos s.
  induction fuel as [|fuel IH]; intros bos s Hlen.
  { lia. }
  simpl. rewrite Hm. split.
  - intros (w1 & s1 & -> & Hw1 & Hk). apply orb_true_iff in Hk as [Hk | Hk].
    + apply IH in Hk as (w & s' & -> & (w2 & ws & Hws & ->) & Hk).
      * exists (w1 +:+ concat_all (w2 :: ws)), s'. rewrite append_assoc.
        split; [done |]. rewrite <- flag_append. split; [| done].
        exists w1, (w2 :: ws). split; [by constructor | done].
      * assert (0 < String.length w1) as Hpos.
        { specialize (Hne w1 Hw1). destruct w1; [done | simpl; lia]. }
        rewrite length_append in Hlen. lia.
    + exists w1, s1. split; [done |]. split; [| done].
      exists w1, []. split; [by repeat constructor |]. simpl.
      by rewrite append_nil_r.
  - intros (w & s' & -> & (w1 & ws & Hws & ->) & Hk).
    inversion Hws as [|? ? Hw1 Hws']; subst.
    exists w1, (concat_all ws +:+ s'). simpl. rewrite append_assoc.
    split; [done |]. split; [done |]. apply orb_true_iff.
    destruct ws as [|w2 ws].
    + right. simpl in *. by rewrite append_nil_r in Hk.
    + left. apply IH.
      * assert (0 < String.length w1) as Hpos.
        { specialize (Hne w1 Hw1). destruct w1; [done | simpl; lia]. }
        change (concat_all (w1 :: w2 :: ws))
          with (w1 +:+ concat_all (w2 :: ws)) in Hlen.
        rewrite append_assoc, length_append in Hlen. lia.
      * exists (concat_all (w2 :: ws)), s'. split; [done |].
        rewrite flag_append. split; [| done]. by exists w2, ws.
Qed.

Lemma lang_not_empty (r : regex) (w : string) :
  nullable r = false -> lang r w -> w <> EmptyString.
Proof.
  revert w; induction r as [| | c | items | r1 IH1 r2 IH2 | r1 IH | n r1 IH | r1 IH];
    intros w Hn Hw; simpl in *; try done.
  - by subst.
  - by destruct Hw as (c & _ & ->).
  - destruct Hw as (w1 & w2 & -> & Hw1 & Hw2).
    apply andb_false_iff in Hn as [Hn | Hn].
    + specialize (IH1 w1 Hn Hw1). by destruct w1.
    + specialize (IH2 w2 Hn Hw2). destruct w1; [done | done].
  - destruct Hw as (w1 & ws & Hws & ->). inversion Hws; subst.
    assert (w1 <> "") by by apply IH. simpl. by destruct w1.
Qed.

(** The backtracking matcher decides the words of the expression. *)
Lemma rmatch_adequate (r : regex) :
  simple r = true -> adequate (rmatch r) (lang r).
Proof.
  induction r as [| | c | items | r1 IH1 r2 IH2 | r1 IH | n r1 IH | r1 IH];
    intros Hs; cbn in Hs; try discriminate Hs.
  - apply adequate_lit.
  - apply adequate_class.
  - apply andb_prop in Hs as [Hs1 Hs2].
    apply (adequate_seq (rmatch r1) (rmatch r2) (lang r1) (lang r2)); auto.
  - apply (adequate_opt (rmatch r1) (lang r1)); auto.
  - apply (adequate_upto (rmatch r1) (lang r1)); auto.
  - apply andb_prop in Hs as [Hs1 Hs2]. apply negb_true_iff in Hs2.
    intros bos s k.
    apply (adequate_plus (rmatch r1) (lang r1) (S (String.length s)) bos s k);
      [auto | | lia].
    intros w. by apply lang_not_empty.
Qed.

(** ** The words of [_re_pattern] *)

Lemma list_ascii_of_append (a b : string) :
  list_ascii_of_string (a +:+ b) = list_ascii_of_string a ++ list_ascii_of_string b.
Proof.
  induction a as [|c a IH]; [done |].
  change (c :: list_ascii_of_string (a +:+ b)
          = c :: list_ascii_of_string a ++ list_ascii_of_string b).
  by rewrite IH.
Qed.

Lemma length_list_ascii (s : string) :
  length (list_ascii_of_string s) = String.length s.
Proof. induction s as [|c s IH]; [done |]. simpl. by rewrite IH. Qed.

Lemma in_alnum (c : ascii) :
  in_class c [Range "a" "z"; Range "0" "9"] = is_alnum c.
Proof. by destruct c as [[] [] [] [] [] [] [] []]. Qed.

Lemma in_alnum_hyphen (c : ascii) :
  in_class c [Range "a" "z"; Range "0" "9"; Single "-"] = is_alnum c || is_hyphen c.
Proof. by destruct c as [[] [] [] [] [] [] [] []]. Qed.

Lemma alnum_not_hyphen (c : ascii) : is_alnum c = true -> is_hyphen c = false.
Proof. by destruct c as [[] [] [] [] [] [] [] []]. Qed.

Lemma lang_upto_class (n : nat) (items : list class_item) (w : string) :
  lang (UpTo n (Class items)) w <->
  String.length w <= n
  /\ forallb (fun c => in_class c items) (list_ascii_of_string w) = true.
Proof.
  simpl. split.
  - intros (ws & Hl & Hws & ->).
    assert (String.length (concat_all ws) = length ws
            /\ forallb (fun c => in_class c items)
                       (list_ascii_of_string (concat_all ws)) = true) as [Hlen Hall].
    { clear Hl. induction Hws as [|w ws (c & Hc & ->) _ [IHl IHa]]; [done |].
      change (concat_all (char c :: ws)) with (String c (concat_all ws)).
      split; simpl; [by rewrite IHl | by rewrite Hc, IHa]. }
    split; [lia | done].
  - revert n. induction w as [|c w IH]; intros n [Hl Hall].
    + exists []. split; [simpl; lia | done].
    + simpl in Hl, Hall. apply andb_prop in Hall as [Hc Hall].
      destruct n as [|n]; [lia |].
      destruct (IH n) as (ws & Hl' & Hws & ->); [split; [lia | done] |].
      exists (char c :: ws). split; [simpl; lia |].
      split; [| done]. constructor; [by exists c | done].
Qed.

Lemma forallb_eq {A : Type} (f g : A -> bool) (l : list A) :
  (forall x, f x = g x) -> forallb f l = forallb g l.
Proof. intros H. induction l as [|x l IH]; [done |]. simpl. by rewrite H, IH. Qed.

Lemma lang_alnum (w : string) : lang alnum w <-> single w.
Proof.
  unfold single.
  change (lang alnum w)
    with (exists c, in_class c [Range "a" "z"; Range "0" "9"] = true /\ w = char c).
  split; intros (c & Hc & ->); exists c.
  - by rewrite <- in_alnum.
  - by rewrite in_alnum.
Qed.

Lemma lang_upto_alnum_hyphen (n : nat) (w : string) :
  lang (UpTo n alnum_hyphen) w <->
  String.length w <= n
  /\ forallb (fun c => is_alnum c || is_hyphen c) (list_ascii_of_string w) = true.
Proof.
  unfold alnum_hyphen. rewrite lang_upto_class.
  by rewrite (forallb_eq _ _ _ in_alnum_hyphen).
Qed.

Lemma lang_last_label (w : string) : lang last_label_re w <-> framed w.
Proof.
  unfold last_label_re, framed. split.
  - intros (w1 & w2 & -> & H1 & (w3 & w4 & -> & H3 & H4)).
    apply lang_alnum in H1 as (c1 & Hc1 & ->).
    apply lang_alnum in H4 as (c2 & Hc2 & ->).
    apply lang_upto_alnum_hyphen in H3 as [Hl Hall].
    by exists c1, w3, c2.
  - intros (c1 & mid & c2 & -> & Hc1 & Hc2 & Hl & Hall).
    exists (char c1), (mid +:+ char c2). split; [done |].
    split; [apply lang_alnum; by exists c1 |].
    exists mid, (char c2). split; [done |].
    split; [by apply lang_upto_alnum_hyphen | apply lang_alnum; by exists c2].
Qed.

Lemma lang_label (w : string) : lang label_re w <-> single w \/ framed w.
Proof.
  unfold label_re. split.
  - intros (w1 & w2 & -> & H1 & [-> | H2]).
    + left. rewrite append_nil_r. by apply lang_alnum.
    + right. apply lang_last_label. by exists w1, w2.
  - intros [Hs | Hf].
    + exists w, "". rewrite append_nil_r. split; [done |].
      split; [by apply lang_alnum | by left].
    + apply lang_last_label in Hf as (w1 & w2 & -> & H1 & H2).
      exists w1, w2. split; [done |]. split; [done | by right].
Qed.

Lemma string_snoc (w : string) :
  w <> EmptyString -> exists mid c, w = mid +:+ char c.
Proof.
  induction w as [|c w IH]; [done |]. intros _.
  destruct w as [|c' w].
  - by exists "", c.
  - destruct IH as (mid & c2 & Hw); [done |].
    exists (String c mid), c2. by rewrite Hw.
Qed.

Lemma label_ok_spec (shortest : nat) (w : string) :
  label_ok shortest w = true <->
  shortest <= String.length w /\ (single w \/ framed w).
Proof.
  unfold label_ok, single, framed. cbv zeta.
  rewrite !andb_true_iff, !Nat.leb_le, length_list_ascii. split.
  - intros [[[[Hs Hl] Hall] Hfirst] Hlast]. split; [done |].
    destruct w as [|c1 w]; [done |]. simpl in Hall, Hfirst.
    apply andb_prop in Hall as [Hc1 Hall]. apply negb_true_iff in Hfirst.
    rewrite Hfirst, orb_false_r in Hc1.
    destruct w as [|c' w]; [left; by exists c1 | right].
    destruct (string_snoc (String c' w)) as (mid & c2 & Hw); [done |].
    rewrite Hw in *. clear Hw.
    change (list_ascii_of_string (String c1 (mid +:+ char c2)))
      with (c1 :: list_ascii_of_string (mid +:+ char c2)) in Hlast.
    rewrite list_ascii_of_append in Hall, Hlast.
    simpl in Hlast. rewrite rev_app_distr in Hlast. simpl in Hlast.
    apply negb_true_iff in Hlast.
    rewrite forallb_app in Hall. apply andb_prop in Hall as [Hmid Hc2].
    simpl in Hc2.
    rewrite Hlast, orb_false_r, andb_true_r in Hc2.
    simpl in Hl. rewrite length_append in Hl. simpl in Hl.
    exists c1, mid, c2. repeat split; [done | done | lia | done].
  - intros [Hs [(c & Hc & ->) | (c1 & mid & c2 & -> & Hc1 & Hc2 & Hl & Hall)]].
    + simpl in *. rewrite Hc, (alnum_not_hyphen c Hc). repeat split; [done | lia].
    + change (list_ascii_of_string (String c1 (mid +:+ char c2)))
        with (c1 :: list_ascii_of_string (mid +:+ char c2)).
      rewrite list_ascii_of_append. simpl. rewrite rev_app_distr. simpl.
      rewrite forallb_app. simpl.
      rewrite Hc1, Hc2, Hall, (alnum_not_hyphen c1 Hc1), (alnum_not_hyphen c2 Hc2).
      rewrite length_append. simpl.
      simpl in Hs. rewrite length_append in Hs. simpl in Hs.
      repeat split; (done || lia).
Qed.

Lemma label_ok_1 (w : string) : label_ok 1 w = true <-> lang label_re w.
Proof.
  rewrite label_ok_spec, lang_label. split; [by intros [_ ?] |].
  intros H. split; [| done].
  destruct H as [(c & _ & ->) | (c1 & mid & c2 & -> & _)]; simpl; lia.
Qed.

Lemma label_ok_2 (w : string) : label_ok 2 w = true <-> lang last_label_re w.
Proof.
  rewrite label_ok_spec, lang_last_label. split.
  - intros [Hl [(c & _ & ->) | Hf]]; [simpl in Hl; lia | done].
  - intros Hf. split; [| by right].
    destruct Hf as (c1 & mid & c2 & -> & _). simpl. rewrite length_append.
    simpl. lia.
Qed.

Lemma label_no_dot (shortest : nat) (w : string) :
  label_ok shortest w = true -> count "." w = 0.
Proof.
  unfold label_ok. cbv zeta. rewrite !andb_true_iff.
  intros [[[_ Hall] _] _]. induction w as [|c w IH]; [done |].
  simpl in Hall. apply andb_prop in Hall as [Hc Hall]. simpl.
  rewrite (IH Hall). destruct (Ascii.eqb_spec c "."); [by subst | done].
Qed.

Lemma count_append (c : ascii) (a b : string) :
  count c (a +:+ b) = count c a + count c b.
Proof.
  induction a as [|c' a IH]; [done |].
  change (count c (String c' (a +:+ b)) = count c (String c' a) + count c b).
  simpl. rewrite IH. lia.
Qed.

Lemma split_append (sep : ascii) (l rest : string) :
  count sep l = 0 -> split sep (l +:+ String sep rest) = l :: split sep rest.
Proof.
  induction l as [|c l IH].
  - intros _. change (split sep (String sep rest) = "" :: split sep rest).
    simpl. by rewrite Ascii.eqb_refl.
  - change (String c l +:+ String sep rest) with (String c (l +:+ String sep rest)).
    simpl. destruct (Ascii.eqb c sep); [done |]. intros H. by rewrite IH.
Qed.

Lemma split_labels (labels : list string) (t : string) :
  Forall (fun label => count "." label = 0) labels -> count "." t = 0 ->
  split "." (concat_all (dotted labels) +:+ t) = labels ++ [t].
Proof.
  intros Hl Ht. induction Hl as [|label labels Hlabel _ IH].
  - by apply split_no_sep.
  - change (concat_all (dotted (label :: labels)))
      with ((label +:+ ".") +:+ concat_all (dotted labels)).
    rewrite !append_assoc.
    change ("." +:+ (concat_all (dotted labels) +:+ t))
      with (String "." (concat_all (dotted labels) +:+ t)).
    rewrite split_append by done. by rewrite IH.
Qed.

Lemma join_labels (labels : list string) (t : string) :
  join "." (labels ++ [t]) = concat_all (dotted labels) +:+ t.
Proof.
  induction labels as [|label labels IH]; [done |].
  change (concat_all (dotted (label :: labels)))
    with ((label +:+ ".") +:+ concat_all (dotted labels)).
  rewrite !append_assoc, <- IH.
  destruct labels; reflexivity.
Qed.

Lemma lang_dotted (ws : list string) :
  Forall (lang (Seq label_re (Lit "."))) ws <->
  exists labels, Forall (fun label => label_ok 1 label = true) labels
                 /\ ws = dotted labels.
Proof.
  split.
  - induction 1 as [|w ws (l & d & -> & Hl & ->) _ (labels & Hlabels & ->)].
    + by exists [].
    + exists (l :: labels). split; [| done]. constructor; [| done].
      by apply label_ok_1.
  - intros (labels & Hlabels & ->).
    induction Hlabels as [|l labels Hl _ IH]; [constructor |].
    constructor; [| done]. exists l, ".". split; [done |].
    split; [by apply label_ok_1 | done].
Qed.

(** The words of [labels_re] are the strings with a dot that the label
    grammar accepts. *)
Lemma lang_labels (w : string) :
  lang labels_re w <-> 1 <= count "." w /\ label_grammar w = true.
Proof.
  unfold labels_re, label_grammar. split.
  - intros (w1 & t & -> & (x & xs & Hws & ->) & Ht).
    apply lang_dotted in Hws as (labels & Hlabels & Heq). rewrite Heq.
    apply label_ok_2 in Ht.
    assert (split "." (concat_all (dotted labels) +:+ t) = labels ++ [t]) as Hsplit.
    { apply split_labels; [| by apply (label_no_dot 2)].
      eapply Forall_impl; [exact Hlabels |]. intros l. apply label_no_dot. }
    split.
    + pose proof (split_length "." (concat_all (dotted labels) +:+ t)) as Hlen.
      rewrite Hsplit, length_app in Hlen.
      destruct labels as [|l labels']; [discriminate Heq |].
      rewrite length_cons in Hlen. change (length [t]) with 1 in Hlen. lia.
    + rewrite Hsplit, rev_app_distr. simpl. rewrite Ht. simpl.
      apply forallb_forall. intros l Hl. apply in_rev in Hl.
      rewrite Forall_forall in Hlabels. apply Hlabels. by apply list_elem_of_In.
  - intros [Hdots Hg].
    pose proof (join_split "." w) as Hjoin.
    pose proof (split_length "." w) as Hlen.
    destruct (rev (split "." w)) as [|t rl] eqn:Hrev; [done |].
    apply andb_prop in Hg as [Ht Hrl].
    assert (split "." w = rev rl ++ [t]) as Hsplit.
    { rewrite <- (rev_involutive (split "." w)), Hrev. done. }
    rewrite Hsplit in Hjoin, Hlen. rewrite join_labels in Hjoin.
    rewrite length_app in Hlen. change (length [t]) with 1 in Hlen.
    destruct (rev rl) as [|x xs] eqn:Hx; [simpl in Hlen; lia |].
    exists (concat_all (dotted (x :: xs))), t. split; [done |].
    split; [| by apply label_ok_2].
    exists (x +:+ "."), (dotted xs). split; [| done].
    apply lang_dotted. exists (x :: xs). split; [| done].
    apply Forall_forall. intros l Hl. rewrite <- Hx in Hl.
    rewrite forallb_forall in Hrl. apply Hrl. apply in_rev.
    by apply list_elem_of_In.
Qed.

Lemma eol_spec (bos : bool) (s : string) :
  rmatch Eol bos s (fun _ _ => true) = true <->
  s = EmptyString \/ s = char newline.
Proof.
  simpl. destruct s as [|c [|c' s]].
  - split; [by left | done].
  - rewrite andb_true_r. split.
    + intros H. apply Ascii.eqb_eq in H as ->. by right.
    + intros [H | [= ->]]; [done | done].
  - split; [done | by intros [|]].
Qed.

(** [re.match(_re_pattern, s)] succeeds on the words of [labels_re] and on
    those words followed by a newline. *)
Lemma rematch_pattern (s : string) :
  rematch _re_pattern s = true <->
  exists w, lang labels_re w /\ (s = w \/ s = w +:+ char newline).
Proof.
  change (rematch _re_pattern s)
    with (true && rmatch labels_re true s
                    (fun bos s' => rmatch Eol bos s' (fun _ _ => true))).
  pose proof (rmatch_adequate labels_re eq_refl) as Hadequate.
  unfold adequate in Hadequate. rewrite andb_true_l, Hadequate. split.
  - intros (w & s' & -> & Hw & Hk). exists w. split; [done |].
    apply eol_spec in Hk as [-> | ->]; [left; by rewrite append_nil_r | by right].
  - intros (w & Hw & [-> | ->]).
    + exists w, "". rewrite append_nil_r. split; [done |]. split; [done |].
      by apply eol_spec; left.
    + exists w, (char newline). split; [done |]. split; [done |].
      by apply eol_spec; right.
Qed.

(** X1. The validator accepts exactly the strings that the specification's
    grammar accepts (one to three dots, labels of the stated form) and those
    strings followed by one newline. *)
Theorem validator_spec (domain : string) :
  validator domain = true <->
  valid_domain domain = true
  \/ exists d, domain = d +:+ char newline /\ valid_domain d = true.
Proof.
  unfold validator, valid_domain, SingleDomain.init. cbn [SingleDomain.valid].
  assert (forall n, ((0 <? n) && (n <? 4))%nat = ((1 <=? n) && (n <=? 3))%nat) as Hb.
  { intros n. destruct (Nat.ltb_spec 0 n), (Nat.ltb_spec n 4),
      (Nat.leb_spec 1 n), (Nat.leb_spec n 3); simpl; lia || done. }
  rewrite Hb. split.
  - destruct ((1 <=? count "." domain) && (count "." domain <=? 3))%nat eqn:Hd;
      [| done].
    intros H. apply rematch_pattern in H as (w & Hw & [-> | ->]).
    + left. by apply lang_labels in Hw as [_ ->].
    + right. exists w. split; [done |].
      rewrite count_append in Hd. change (count "." (char newline)) with 0 in Hd.
      rewrite Nat.add_0_r in Hd.
      rewrite Hd. by apply lang_labels in Hw as [_ ->].
  - intros [H | (d & -> & H)]; apply andb_prop in H as [Hd Hg].
    + rewrite Hd. apply rematch_pattern. exists domain. split; [| by left].
      apply lang_labels. split; [| done].
      apply andb_prop in Hd as [Hd _]. by apply Nat.leb_le in Hd.
    + rewrite count_append. change (count "." (char newline)) with 0.
      rewrite Nat.add_0_r, Hd.
      apply rematch_pattern. exists d. split; [| by right].
      apply lang_labels. split; [| done].
      apply andb_prop in Hd as [Hd _]. by apply Nat.leb_le in Hd.
Qed.

(** ** Further properties of the schemes and of the matcher *)

Lemma length_enumerate_from (x : nat) (s : string) :
  length (enumerate_from x s) = String.length s.
Proof. revert x; induction s as [|c s IH]; intros x; [done |]. simpl. by rewrite IH. Qed.

(** X2. The scheme of a string without censoring characters has one entry
    for each position of the string, and a scheme is empty exactly when every
    character of the string is a censoring character. *)
Theorem scheme_builder_entries (s : string) (censored_chars : list string) :
  length (scheme_builder s []) = String.length s
  /\ (scheme_builder s censored_chars = [] <->
      forall position c,
        String.get position s = Some c -> char_in c censored_chars = true).
Proof.
  split.
  - unfold scheme_builder, enumerate.
    rewrite <- (length_enumerate_from 0 s). f_equal.
    apply forallb_filter_id. apply forallb_forall. by intros [k c] _.
  - split.
    + intros Hnil k c Hget.
      pose proof (scheme_builder_get s censored_chars k) as Hk.
      rewrite Hnil, Hget in Hk. simpl in Hk.
      by destruct (char_in c censored_chars).
    + intros Hall. destruct (scheme_builder s censored_chars) as [|[k c] l] eqn:Hs;
        [done |].
      assert (In (k, c) (scheme_builder s censored_chars)) as Hin
        by (rewrite Hs; by left).
      apply scheme_builder_in in Hin. rewrite scheme_builder_get in Hin.
      destruct (String.get k s) as [c'|] eqn:Hget; [| done].
      by rewrite (Hall k c' Hget) in Hin.
Qed.

(** In a catalog of [gmail.com], [gmial.com] and [yahoo.com] the query
    [g****.**m] with the censoring character [*] finds the first two, in
    catalog order, also when a local part and [@] precede it, and the full
    report lists all three. *)
Theorem match_end_to_end :
  DomainFinder.match_ three_domains (QStr "g****.**m") false
    = Ok (Matches [gmail; gmial])
  /\ DomainFinder.match_ three_domains (QStr "someone@g****.**m") false
    = Ok (Matches [gmail; gmial])
  /\ DomainFinder.match_ three_domains (QStr "g****.**m") true
    = Ok (Report [(gmail, true); (gmial, true); (yahoo, false)]).
Proof. by vm_compute. Qed.

(** ** More on [scheme_builder] *)

Lemma filter_map_comm {A B : Type} (f : B -> bool) (g : A -> B) (l : list A) :
  List.filter f (map g l) = map g (List.filter (fun a => f (g a)) l).
Proof.
  induction l as [|a l IH]; [done |]. simpl.
  destruct (f (g a)); simpl; by rewrite IH.
Qed.

Lemma snd_enumerate_from (x : nat) (s : string) :
  map snd (enumerate_from x s) = list_ascii_of_string s.
Proof. revert x; induction s as [|c s IH]; intros x; [done |]. simpl. by rewrite IH. Qed.

Lemma fst_enumerate_from (x : nat) (s : string) :
  map fst (enumerate_from x s) = seq x (String.length s).
Proof. revert x; induction s as [|c s IH]; intros x; [done |]. simpl. by rewrite IH. Qed.

Lemma keys_enumerate_from (g : ascii -> bool) (x : nat) (s : string) :
  StronglySorted lt (map fst (List.filter (fun xc => g (snd xc)) (enumerate_from x s)))
  /\ Forall (le x) (map fst (List.filter (fun xc => g (snd xc)) (enumerate_from x s))).
Proof.
  revert x; induction s as [|c s IH]; intros x; simpl.
  - split; constructor.
  - destruct (IH (S x)) as [Hsorted Hle].
    assert (Forall (le x)
              (map fst (List.filter (fun xc => g (snd xc)) (enumerate_from (S x) s))))
      as Hle'.
    { eapply Forall_impl; [exact Hle |]. intros k Hk. simpl in Hk. lia. }
    destruct (g c); simpl; [| done].
    split; constructor; [done | | lia | done].
    eapply Forall_impl; [exact Hle |]. intros k Hk. simpl in Hk. lia.
Qed.

(** X3. The entries of a scheme are the positions of the string that hold
    no censoring character, each with its character, in increasing order of
    position; with the censored positions they account for every position
    of the string. *)
Theorem scheme_builder_positions (s : string) (censored_chars : list string) :
  StronglySorted lt (map fst (scheme_builder s censored_chars))
  /\ (forall position c,
        In (position, c) (scheme_builder s censored_chars) <->
        String.get position s = Some c /\ char_in c censored_chars = false)
  /\ length (scheme_builder s censored_chars) + censored_count s censored_chars
     = String.length s.
Proof.
  split; [| split].
  - apply (keys_enumerate_from (fun c => negb (char_in c censored_chars)) 0 s).
  - intros k c. rewrite scheme_builder_in, scheme_builder_get.
    destruct (String.get k s) as [c'|]; [| by split; [| intros []]].
    destruct (char_in c' censored_chars) eqn:Hc'; split.
    + done.
    + intros [[= ->] Hc]. congruence.
    + intros [= ->]. done.
    + by intros [[= ->] _].
  - unfold scheme_builder, censored_count, enumerate.
    rewrite <- (length_list_ascii s), <- (snd_enumerate_from 0 s).
    rewrite filter_map_comm, !length_map.
    rewrite Nat.add_comm. apply filter_length.
Qed.

(** X4. The scheme of a [SingleDomain] lists the positions [0] to
    [len - 1] with the characters of the domain, so that the domain string is
    read back from its scheme. *)
Theorem SingleDomain_scheme_round_trip (d : string) (v : option bool) :
  map fst (SingleDomain.scheme (SingleDomain.init d v)) = seq 0 (SingleDomain.len (SingleDomain.init d v))
  /\ string_of_list_ascii (map snd (SingleDomain.scheme (SingleDomain.init d v))) = d.
Proof.
  assert (scheme_builder d [] = enumerate d) as Hdense.
  { unfold scheme_builder. apply forallb_filter_id.
    apply forallb_forall. by intros [k c] _. }
  simpl. rewrite Hdense. unfold enumerate. split.
  - apply fst_enumerate_from.
  - rewrite snd_enumerate_from. apply string_of_list_ascii_of_string.
Qed.

Lemma char_in_length (c : ascii) (censored_chars : list string) :
  char_in c censored_chars = true <-> In (char c) censored_chars.
Proof.
  unfold char_in. rewrite existsb_exists. split.
  - intros (t & Hin & Heq). apply String.eqb_eq in Heq. by subst.
  - intros Hin. exists (char c). split; [done |]. apply String.eqb_refl.
Qed.

(** X5. Only strings of one character censor: when no censoring string has
    length one, nothing is censored and the scheme is that of the string
    without censoring. *)
Theorem scheme_builder_tokens (s : string) (censored_chars : list string) :
  (forall token, In token censored_chars -> String.length token <> 1) ->
  scheme_builder s censored_chars = scheme_builder s [].
Proof.
  intros Htokens. unfold scheme_builder.
  rewrite !forallb_filter_id; [done | |].
  - apply forallb_forall. by intros [k c] _.
  - apply forallb_forall. intros [k c] _. simpl.
    destruct (char_in c censored_chars) eqn:Hc; [| done].
    apply char_in_length in Hc. by destruct (Htokens (char c) Hc).
Qed.

Lemma scheme_builder_tokens_stars :
  scheme_builder "g**gle.com" ["**"; ""] = scheme_builder "g**gle.com" [].
Proof.
  apply scheme_builder_tokens.
  intros token [<- | [<- | []]]; simpl; lia.
Defined.

(** ** More on [SingleDomain.match] *)

Lemma match_items_raises (self_scheme : dict nat ascii)
    (items : list (nat * ascii)) (e : exception) :
  SingleDomain.match_items self_scheme items = Raise e <->
  exists before key value after,
    items = before ++ (key, value) :: after
    /\ (forall k v, In (k, v) before -> dict_get Nat.eqb self_scheme k = Some v)
    /\ dict_get Nat.eqb self_scheme key = None
    /\ e = KeyError key.
Proof.
  induction items as [|[k v] items IH]; simpl.
  - split; [done |]. intros (before & key & value & after & Heq & _).
    by destruct before.
  - destruct (dict_get Nat.eqb self_scheme k) as [c|] eqn:Hget.
    + destruct (Ascii.eqb_spec c v) as [-> | Hne]; simpl.
      * rewrite IH. split.
        -- intros (before & key & value & after & -> & Hb & Hk & ->).
           exists ((k, v) :: before), key, value, after.
           split; [done |]. split; [| done].
           intros k' v' [[= <- <-] | Hin]; [done | by apply Hb].
        -- intros (before & key & value & after & Heq & Hb & Hk & ->).
           destruct before as [|[k0 v0] before]; simpl in Heq.
           ++ injection Heq as <- <- <-. congruence.
           ++ injection Heq as <- <- ->.
              exists before, key, value, after. split; [done |].
              split; [| done]. intros k' v' Hin. apply Hb. by right.
      * split; [done |].
        intros (before & key & value & after & Heq & Hb & Hk & ->).
        destruct before as [|[k0 v0] before]; simpl in Heq.
        -- injection Heq as <- <- <-. congruence.
        -- injection Heq as <- <- ->.
           specialize (Hb k v (or_introl eq_refl)). congruence.
    + split.
      * intros [= <-]. exists [], k, v, items. by repeat split.
      * intros (before & key & value & after & Heq & Hb & Hk & ->).
        destruct before as [|[k0 v0] before]; simpl in Heq.
        -- by injection Heq as <- <- <-.
        -- injection Heq as <- <- ->.
           specialize (Hb k v (or_introl eq_refl)). congruence.
Qed.

(** X6. On any two objects, [match] raises only [KeyError], and it raises
    [KeyError] for the position [key] exactly when the lengths are equal,
    [key] is a position of the pattern's scheme that the domain's scheme
    lacks, and the domain's scheme holds the pattern's character at every
    position that the pattern's scheme lists before [key]. *)
Theorem SingleDomain_match_raises (self : SingleDomain.t)
    (censored_domain : CensoredDomain.t) (e : exception) :
  SingleDomain.match_ self censored_domain = Raise e <->
  CensoredDomain.len censored_domain = SingleDomain.lenght self
  /\ exists before key value after,
       CensoredDomain.scheme censored_domain = before ++ (key, value) :: after
       /\ (forall k v, In (k, v) before ->
             dict_get Nat.eqb (SingleDomain.scheme self) k = Some v)
       /\ dict_get Nat.eqb (SingleDomain.scheme self) key = None
       /\ e = KeyError key.
Proof.
  unfold SingleDomain.match_.
  destruct (Nat.eqb_spec (CensoredDomain.len censored_domain)
                         (SingleDomain.lenght self)) as [Heq | Hne].
  - rewrite match_items_raises. by split; [| intros [_ ?]].
  - split; [done | by intros [? _]].
Qed.

Example match_stale_pattern :
  SingleDomain.match_ (SingleDomain.init "gbc" None) stale_pattern
  = Raise (KeyError 5).
Proof. reflexivity. Qed.

Lemma string_get_ext (p d : string) :
  String.length p = String.length d ->
  (forall k c, String.get k p = Some c -> String.get k d = Some c) ->
  p = d.
Proof.
  revert d; induction p as [|c p IH]; intros [|c' d] Hlen Hget; try done.
  simpl in Hlen. f_equal.
  - specialize (Hget 0 c eq_refl). simpl in Hget. congruence.
  - apply IH; [lia |]. intros k x Hk. apply (Hget (S k) x Hk).
Qed.

Lemma match_strings (d : string) (v : option bool) (p : string)
    (censored_chars : list string) :
  SingleDomain.match_ (SingleDomain.init d v) (CensoredDomain.init p censored_chars)
  = Ok true <->
  String.length p = String.length d
  /\ forall k c, String.get k p = Some c -> char_in c censored_chars = false ->
                 String.get k d = Some c.
Proof.
  rewrite match_constructed_true by apply init_constructed. simpl.
  split; intros [Hlen Hv]; (split; [done |]); intros k c.
  - intros Hk Hc. apply Hv. by rewrite scheme_builder_get, Hk, Hc.
  - rewrite scheme_builder_get. destruct (String.get k p) as [c'|] eqn:Hk; [| done].
    destruct (char_in c' censored_chars) eqn:Hc; [done |].
    intros [= <-]. by apply Hv.
Qed.

(** X7. A domain matches the pattern spelled like itself, whatever the
    censoring characters; and a pattern without censoring characters is
    matched by the domain of the same string and by no other. *)
Theorem match_exact (d : string) (v : option bool) :
  (forall censored_chars,
     SingleDomain.match_ (SingleDomain.init d v) (CensoredDomain.init d censored_chars)
     = Ok true)
  /\ (forall p,
        SingleDomain.match_ (SingleDomain.init d v) (CensoredDomain.init p [])
        = Ok (String.eqb p d)).
Proof.
  split.
  - intros censored_chars. by apply match_strings.
  - intros p.
    rewrite (match_constructed_returns _ p [] (init_constructed d v)). f_equal.
    destruct (String.eqb_spec p d) as [-> | Hne].
    + unfold accepts.
      by assert (SingleDomain.match_ (SingleDomain.init d v) (CensoredDomain.init d [])
                 = Ok true) as -> by by apply match_strings.
    + destruct (accepts (CensoredDomain.init p []) (SingleDomain.init d v)) eqn:Hacc;
        [| done].
      destruct Hne.
      pose proof (match_constructed_returns _ p [] (init_constructed d v)) as Hm.
      rewrite Hacc in Hm. apply match_strings in Hm as [Hlen Hget].
      apply string_get_ext; [done |]. intros k c Hk. by apply Hget.
Qed.

(** X8. Censoring more never loses a match: a domain that matches a pattern
    still matches it when further characters count as censoring. *)
Theorem match_monotone (d : string) (v : option bool) (p : string)
    (censored_chars more : list string) :
  SingleDomain.match_ (SingleDomain.init d v) (CensoredDomain.init p censored_chars)
    = Ok true ->
  SingleDomain.match_ (SingleDomain.init d v)
    (CensoredDomain.init p (censored_chars ++ more)) = Ok true.
Proof.
  rewrite !match_strings. intros [Hlen Hget]. split; [done |].
  intros k c Hk Hc. apply Hget; [done |].
  unfold char_in in *. rewrite existsb_app in Hc.
  by apply orb_false_iff in Hc as [? _].
Qed.

Lemma match_monotone_gmail :
  SingleDomain.match_ gmail (CensoredDomain.init "g****.**m" (["*"] ++ ["?"; "g"]))
  = Ok true.
Proof.
  apply (match_monotone "gmail.com" None "g****.**m" ["*"] ["?"; "g"]).
  reflexivity.
Defined.

(** X9. A pattern made of censoring characters only is matched by exactly
    the domains of its length. *)
Theorem match_all_censored (d : string) (v : option bool) (p : string)
    (censored_chars : list string) :
  (forall position c, String.get position p = Some c ->
                      char_in c censored_chars = true) ->
  SingleDomain.match_ (SingleDomain.init d v) (CensoredDomain.init p censored_chars)
  = Ok (String.length p =? String.length d)%nat.
Proof.
  intros Hall.
  rewrite (match_constructed_returns _ p censored_chars (init_constructed d v)).
  f_equal.
  destruct (accepts (CensoredDomain.init p censored_chars) (SingleDomain.init d v))
    eqn:Hacc;
    pose proof (match_constructed_returns _ p censored_chars (init_constructed d v))
      as Hm; rewrite Hacc in Hm; symmetry.
  - apply match_strings in Hm as [Hlen _]. by apply Nat.eqb_eq.
  - apply Nat.eqb_neq. intros Hlen.
    assert (SingleDomain.match_ (SingleDomain.init d v)
              (CensoredDomain.init p censored_chars) = Ok true) as Hyes; [| congruence].
    apply match_strings. split; [done |]. intros k c Hk Hc.
    rewrite (Hall k c Hk) in Hc. done.
Qed.

Lemma match_all_censored_stars :
  SingleDomain.match_ gmail (CensoredDomain.init "*********" ["*"]) = Ok true.
Proof.
  apply (match_all_censored "gmail.com" None "*********" ["*"]).
  intros position c Hget.
  do 9 (destruct position as [|position]; [by injection Hget as <- |]).
  discriminate Hget.
Defined.

(** ** More on [DomainFinder.match] *)

Lemma first_occurrences_from_sublist {K : Type} (eqb : K -> K -> bool) (acc l : list K) :
  exists l', first_occurrences_from eqb acc l = acc ++ l' /\ sublist l' l.
Proof.
  revert acc; induction l as [|k l IH]; intros acc.
  - exists []. by rewrite app_nil_r.
  - unfold first_occurrences_from in *. simpl. destruct (seen eqb acc k).
    + destruct (IH acc) as (l' & -> & Hsub). exists l'. split; [done |].
      by apply sublist_cons.
    + destruct (IH (acc ++ [k])) as (l' & -> & Hsub). exists (k :: l').
      split; [by rewrite <- app_assoc |]. by apply sublist_skip.
Qed.

Lemma sublist_list_filter {K : Type} (b : K -> bool) (l : list K) :
  sublist (List.filter b l) l.
Proof.
  induction l as [|k l IH]; [constructor |]. simpl.
  destruct (b k); [by apply sublist_skip | by apply sublist_cons].
Qed.

Lemma NoDup_list_filter {K : Type} (b : K -> bool) (l : list K) :
  NoDup l -> NoDup (List.filter b l).
Proof. intros H. eapply sublist_NoDup; [done | apply sublist_list_filter]. Qed.

(** X10. Over a catalog of constructed domains, [match] without [full]
    returns the entries of the catalog that match the pattern, each once, in
    the order in which the catalog first lists them. *)
Theorem match_only_entries (self : DomainFinder.t) (p : string)
    (censored_chars : list string) :
  let P := CensoredDomain.init p censored_chars in
  Forall constructed (DomainFinder.domains self) ->
  exists found,
    DomainFinder.match_ self (QCensored P) false = Ok (Matches found)
    /\ NoDup found
    /\ sublist found (DomainFinder.iter self)
    /\ forall D, In D found <->
         In D (DomainFinder.iter self) /\ SingleDomain.match_ D P = Ok true.
Proof.
  intros P Hc.
  pose proof (match_results self p censored_chars false Hc) as Honly.
  cbv zeta in Honly. rewrite filter_accepting in Honly.
  change (CensoredDomain.init p censored_chars) with P in Honly.
  eexists. split; [exact Honly |].
  destruct (first_occurrences_from_spec SingleDomain.eqb constructed
              constructed_eqb [] (DomainFinder.domains self))
    as [Hnd Hin]; [done | done | constructor |].
  destruct (first_occurrences_from_sublist SingleDomain.eqb []
              (DomainFinder.domains self)) as (l' & Hl' & Hsub).
  split; [by apply NoDup_list_filter |]. split.
  - etrans; [apply sublist_list_filter |]. unfold first_occurrences.
    by rewrite Hl'.
  - intros D. rewrite filter_In. unfold DomainFinder.iter.
    rewrite <- !list_elem_of_In, (Hin D), elem_of_nil.
    assert (D ∈ DomainFinder.domains self ->
            accepts P D = true <-> SingleDomain.match_ D P = Ok true) as Hacc.
    { intros HD. rewrite Forall_forall in Hc.
      pose proof (match_constructed_returns D p censored_chars (Hc D HD)) as Hm.
      change (CensoredDomain.init p censored_chars) with P in Hm.
      rewrite Hm. split; [by intros -> | by intros [= ->]]. }
    split.
    + intros [[[] | HD] Ha]. split; [done | by apply Hacc].
    + intros [HD Hm]. split; [by right | by apply Hacc].
Qed.

Lemma match_only_three_domains :
  exists found,
    DomainFinder.match_ three_domains
      (QCensored (CensoredDomain.init "g****.**m" ["*"])) false = Ok (Matches found)
    /\ NoDup found
    /\ sublist found [gmail; gmial; yahoo].
Proof.
  destruct (match_only_entries three_domains "g****.**m" ["*"])
    as (found & Hm & Hnd & Hsub & _).
  - repeat constructor.
  - exists found. split; [exact Hm |]. split; [exact Hnd | exact Hsub].
Defined.

Lemma last_cons {A : Type} (x y : A) (l : list A) (d : A) :
  List.last (x :: y :: l) d = List.last (y :: l) d.
Proof. reflexivity. Qed.

Lemma last_split_after (sep : ascii) (a b : string) :
  List.last (split sep (a +:+ String sep b)) EmptyString
  = List.last (split sep b) EmptyString.
Proof.
  induction a as [|c a IH].
  - change (List.last (split sep (String sep b)) "" = List.last (split sep b) "").
    simpl. rewrite Ascii.eqb_refl.
    destruct (split_cons sep b) as (piece & pieces & ->). reflexivity.
  - change (String c a +:+ String sep b) with (String c (a +:+ String sep b)).
    pose proof (split_length sep (a +:+ String sep b)) as Hlen.
    rewrite count_append in Hlen. simpl in Hlen. rewrite Ascii.eqb_refl in Hlen.
    simpl. destruct (split sep (a +:+ String sep b)) as [|piece [|piece' pieces]];
      try (simpl in Hlen; lia).
    rewrite last_cons in IH.
    destruct (Ascii.eqb c sep); by rewrite !last_cons.
Qed.

(** X11. Of a query string, [match] reads what follows the last [@]: a
    local part and an [@] put before a query change nothing. *)
Theorem match_ignores_local_part (self : DomainFinder.t) (local query : string)
    (full : bool) :
  DomainFinder.match_ self (QStr (local +:+ String "@" query)) full
  = DomainFinder.match_ self (QStr query) full.
Proof.
  unfold DomainFinder.match_. cbn [bind]. by rewrite last_split_after.
Qed.

(** X12. Over a catalog of constructed domains, [match] returns for every
    query string, with or without [full]; a query that is neither a string
    nor a [CensoredDomain] raises [TypeError]. *)
Theorem match_returns (self : DomainFinder.t) (query : string) (full : bool) :
  Forall constructed (DomainFinder.domains self) ->
  returns (DomainFinder.match_ self (QStr query) full)
  /\ exists msg, DomainFinder.match_ self QOther full = Raise (TypeError msg).
Proof.
  intros Hc. split; [| by eexists].
  pose proof (match_results self (List.last (split "@" query) EmptyString)
                (DomainFinder.censoring_chars self) full Hc) as Hm.
  cbv zeta in Hm. eexists. exact Hm.
Qed.

Lemma match_returns_three_domains :
  returns (DomainFinder.match_ three_domains (QStr "someone@g****.**m") true).
Proof.
  apply (match_returns three_domains "someone@g****.**m" true).
  repeat constructor.
Defined.

(** ** More on [change_censoring_chars] *)

(** X13. Only [str] arguments are decomposed: an argument that is a list of
    strings gives its elements as they are, so a list with a string of
    several characters puts that string among the censoring characters. *)
Theorem change_censoring_chars_members (a : chars_arg) (args : list chars_arg)
    (x : string) :
  (x ∈ DomainFinder.change_censoring_chars (a :: args) <->
     exists b, In b (a :: args) /\ In x (list_of b))
  /\ (forall l, x ∈ DomainFinder.change_censoring_chars [AIter l] <-> x ∈ l)
  /\ (forall s, x ∈ DomainFinder.change_censoring_chars [AStr s] <->
        exists i c, String.get i s = Some c /\ x = char c).
Proof.
  split; [by apply elem_of_change_censoring_chars |]. split.
  - intros l. rewrite elem_of_change_censoring_chars by done.
    rewrite list_elem_of_In. split.
    + by intros (b & [<- | []] & Hx).
    + intros Hx. exists (AIter l). split; [by left | done].
  - intros s. rewrite elem_of_change_censoring_chars by done.
    rewrite <- in_chars. split.
    + by intros (b & [<- | []] & Hx).
    + intros Hx. exists (AStr s). split; [by left | done].
Qed.

Lemma NoDup_change_censoring_chars (args : list chars_arg) :
  NoDup (DomainFinder.change_censoring_chars args).
Proof. unfold DomainFinder.change_censoring_chars. apply NoDup_elements. Qed.

(** X14. The censoring characters do not depend on the order of the
    arguments, and they are kept by passing them again as a list: in both
    cases the two results hold the same characters, each once, and so are
    the same list up to a permutation. *)
Theorem change_censoring_chars_stable (args args' : list chars_arg) :
  DomainFinder.change_censoring_chars (args ++ args')
    ≡ₚ DomainFinder.change_censoring_chars (args' ++ args)
  /\ DomainFinder.change_censoring_chars
       [AIter (DomainFinder.change_censoring_chars args)]
     ≡ₚ DomainFinder.change_censoring_chars args.
Proof.
  split; (apply NoDup_Permutation; [apply NoDup_change_censoring_chars.. |]);
    intros x.
  - destruct args as [|a args]; [by rewrite app_nil_r |].
    destruct args' as [|a' args']; [by rewrite app_nil_r |].
    rewrite !elem_of_change_censoring_chars by done.
    split; intros (b & Hb & Hx); exists b; (split; [| done]);
      apply in_app_iff; apply in_app_iff in Hb; tauto.
  - rewrite elem_of_change_censoring_chars by done.
    rewrite list_elem_of_In. split.
    + by intros (b & [<- | []] & Hx).
    + intros Hx. exists (AIter (DomainFinder.change_censoring_chars args)).
      split; [by left | done].
Qed.

(** ** More on the catalog kept by [__post_init__] *)

Lemma filter_filter {A : Type} (f : A -> bool) (l : list A) :
  List.filter f (List.filter f l) = List.filter f l.
Proof.
  induction l as [|a l IH]; [done |]. simpl.
  destruct (f a) eqn:Hf; simpl; [by rewrite Hf, IH | done].
Qed.

(** X15. From a catalog of strings, [keep_only_valid_domains] keeps the
    strings that the validator accepts, in their order, each as a constructed
    [SingleDomain]; without it every entry is kept; and a catalog that was
    normalised is not changed by normalising it again. *)
Theorem post_init_domains_normal (strings : list string)
    (domains : list (string + SingleDomain.t)) (keep_only_valid_domains : bool) :
  DomainFinder.post_init_domains (map inl strings) true
    = map (fun s => SingleDomain.init s None) (List.filter validator strings)
  /\ Forall constructed
       (DomainFinder.post_init_domains (map inl strings) keep_only_valid_domains)
  /\ length (DomainFinder.post_init_domains domains false) = length domains
  /\ length (DomainFinder.post_init_domains domains true) <= length domains
  /\ DomainFinder.post_init_domains
       (map inr (DomainFinder.post_init_domains domains keep_only_valid_domains))
       keep_only_valid_domains
     = DomainFinder.post_init_domains domains keep_only_valid_domains.
Proof.
  unfold DomainFinder.post_init_domains.
  split; [| split; [| split; [| split]]].
  - rewrite map_map. apply (filter_map_comm SingleDomain.valid).
  - rewrite map_map.
    assert (Forall constructed (map (fun s => SingleDomain.init s None) strings)) as Hc.
    { apply Forall_forall. intros D HD. apply list_elem_of_In, in_map_iff in HD.
      destruct HD as (s & <- & _). apply init_constructed. }
    destruct keep_only_valid_domains; [| done].
    apply Forall_forall. intros D HD. apply list_elem_of_In, filter_In in HD.
    rewrite Forall_forall in Hc. apply Hc, list_elem_of_In. tauto.
  - apply length_map.
  - etrans; [apply filter_length_le |]. by rewrite length_map.
  - rewrite map_map. simpl. rewrite map_id.
    destruct keep_only_valid_domains; [apply filter_filter | done].
Qed.

(** ** More on the validator *)

Lemma label_ok_bounds (shortest : nat) (label : string) :
  label_ok shortest label = true ->
  shortest <= String.length label <= 63
  /\ forallb domain_char (list_ascii_of_string label) = true.
Proof.
  unfold label_ok. cbv zeta.
  rewrite !andb_true_iff, !Nat.leb_le, length_list_ascii.
  intros [[[[Hs Hl] Hall] _] _]. split; [done |].
  apply forallb_forall. intros c Hc. rewrite forallb_forall in Hall.
  unfold domain_char. by rewrite (Hall c Hc).
Qed.

Lemma lang_labels_shape (w : string) :
  lang labels_re w ->
  exists labels t,
    labels <> []
    /\ Forall (fun label => label_ok 1 label = true) labels
    /\ label_ok 2 t = true
    /\ w = concat_all (dotted labels) +:+ t.
Proof.
  intros (w1 & t & -> & (x & xs & Hws & ->) & Ht).
  apply lang_dotted in Hws as (labels & Hlabels & Heq).
  exists labels, t. rewrite Heq. split; [by destruct labels |].
  split; [done |]. split; [by apply label_ok_2 | done].
Qed.

Lemma dotted_bounds (labels : list string) :
  Forall (fun label => label_ok 1 label = true) labels ->
  count "." (concat_all (dotted labels)) = length labels
  /\ 2 * length labels <= String.length (concat_all (dotted labels))
     <= 64 * length labels
  /\ forallb domain_char (list_ascii_of_string (concat_all (dotted labels))) = true.
Proof.
  induction 1 as [|label labels Hlabel _ (IHc & IHl & IHa)]; [by repeat split |].
  change (concat_all (dotted (label :: labels)))
    with ((label +:+ ".") +:+ concat_all (dotted labels)).
  destruct (label_ok_bounds 1 label Hlabel) as [Hlen Hall].
  rewrite !count_append, !length_append, !list_ascii_of_append, !forallb_app.
  rewrite (label_no_dot 1 label Hlabel), IHc, Hall, IHa. simpl. repeat split; lia.
Qed.

(** X16. A string that the validator accepts is a string of 4 to 255
    lowercase letters, digits, hyphens and dots, or such a string followed by
    a newline. *)
Theorem validator_bounds (domain : string) :
  validator domain = true ->
  exists w,
    (domain = w \/ domain = w +:+ char newline)
    /\ 4 <= String.length w <= 255
    /\ forallb domain_char (list_ascii_of_string w) = true.
Proof.
  unfold validator, SingleDomain.init. cbn [SingleDomain.valid].
  destruct (Nat.ltb_spec 0 (count "." domain)) as [Hlo | ?]; [| done].
  destruct (Nat.ltb_spec (count "." domain) 4) as [Hhi | ?]; [| done].
  cbn [andb]. intros Hm. apply rematch_pattern in Hm as (w & Hw & Hd).
  exists w. split; [done |].
  assert (count "." domain = count "." w) as Hcount.
  { destruct Hd as [-> | ->]; [done |]. rewrite count_append. simpl. lia. }
  apply lang_labels_shape in Hw as (labels & t & _ & Hlabels & Ht & ->).
  destruct (dotted_bounds labels Hlabels) as (Hc & Hl & Ha).
  destruct (label_ok_bounds 2 t Ht) as [Hlen Hall].
  rewrite count_append, Hc, (label_no_dot 2 t Ht) in Hcount.
  rewrite length_append, list_ascii_of_append, forallb_app, Ha, Hall.
  split; [lia | done].
Qed.

Lemma validator_bounds_gmail :
  exists w,
    ("gmail.com" = w \/ "gmail.com" = w +:+ char newline)
    /\ 4 <= String.length w <= 255
    /\ forallb domain_char (list_ascii_of_string w) = true.
Proof. apply (validator_bounds "gmail.com"). reflexivity. Defined.

(** ** Equality and hash of [SingleDomain] *)

(** X17. The equality of [SingleDomain] is reflexive, symmetric and
    transitive, and equal objects have the same hash, as a dictionary key
    must; it reads the domain and the validity only, so that a domain forced
    valid and the same domain forced invalid are different keys with the same
    hash. *)
Theorem SingleDomain_eq_hash (hash_str : string -> Z) (a b c : SingleDomain.t) :
  SingleDomain.eqb a a = true
  /\ SingleDomain.eqb a b = SingleDomain.eqb b a
  /\ (SingleDomain.eqb a b = true -> SingleDomain.eqb b c = true ->
      SingleDomain.eqb a c = true)
  /\ (SingleDomain.eqb a b = true ->
      SingleDomain.hash hash_str a = SingleDomain.hash hash_str b)
  /\ (forall d,
        SingleDomain.eqb (SingleDomain.init d (Some true))
                         (SingleDomain.init d (Some false)) = false
        /\ SingleDomain.hash hash_str (SingleDomain.init d (Some true))
           = SingleDomain.hash hash_str (SingleDomain.init d (Some false))).
Proof.
  unfold SingleDomain.eqb, SingleDomain.hash.
  split; [by rewrite String.eqb_refl, Bool.eqb_reflx |].
  split; [rewrite String.eqb_sym;
          by destruct (SingleDomain.valid a), (SingleDomain.valid b) |].
  split; [| split].
  - rewrite !andb_true_iff, !String.eqb_eq, !Bool.eqb_true_iff.
    intros [-> ->] [-> ->]. done.
  - rewrite andb_true_iff, String.eqb_eq. by intros [-> _].
  - intros d. simpl. by rewrite String.eqb_refl.
Qed.

(** ** The exceptions of the loaders and of the command line *)

(** X18. The loaders raise the exception of their first step that fails: a
    list of domains that cannot be opened or read, a JSON document that does
    not parse; and for a content in lines, where every step before it
    succeeds, they raise the [TypeError] of the constructor. *)
Theorem loaders_raise (json_loads : string -> result (list string))
    (open_default_domains : result TextIO) (readobj : TextIO)
    (strcontent query : string) (censoring_chars : chars_arg) :
  (forall e, String.prefix "[" strcontent = true ->
     json_loads strcontent = Raise e ->
     DomainFinder.loads json_loads strcontent censoring_chars = Raise e)
  /\ (String.prefix "[" strcontent = false ->
      exists msg,
        DomainFinder.loads json_loads strcontent censoring_chars
        = Raise (TypeError msg))
  /\ (forall e, read readobj = Raise e ->
        DomainFinder.load json_loads readobj censoring_chars = Raise e)
  /\ (read readobj = Ok strcontent ->
      DomainFinder.load json_loads readobj censoring_chars
      = DomainFinder.loads json_loads strcontent censoring_chars)
  /\ (forall e, open_default_domains = Raise e ->
        DomainFinder.load_default json_loads open_default_domains censoring_chars
        = Raise e
        /\ emdofi_match json_loads open_default_domains query censoring_chars
           = Raise e)
  /\ (open_default_domains = Ok readobj ->
      exists e,
        DomainFinder.load json_loads readobj censoring_chars = Raise e
        /\ emdofi_match json_loads open_default_domains query censoring_chars
           = Raise e).
Proof.
  unfold emdofi_match, DomainFinder.load_default, DomainFinder.load, DomainFinder.loads,
    DomainFinder.loads_datas.
  split; [by intros e -> -> |].
  split; [intros ->; by eexists |].
  split; [by intros e -> |]. split; [by intros -> |].
  split; [by intros e -> |].
  intros ->. simpl. destruct (read readobj) as [content | e]; simpl.
  - destruct (if String.prefix "[" content then json_loads content
              else Ok (split newline content)) as [datas | e]; simpl.
    + by eexists.
    + by exists e.
  - by exists e.
Qed.

(** X19. The command line prints nothing: for every argument, [main] ends
    in the exception that the module-level [match] raises, before any call
    of [print]. *)
Theorem main_prints_nothing (json_loads : string -> result (list string))
    (open_default_domains : result TextIO) (domain : string)
    (censored : option string) :
  exists e,
    Main.main json_loads open_default_domains (Main.parse_args domain censored)
    = ([], Raise e)
    /\ emdofi_match json_loads open_default_domains domain
         (AStr (match censored with Some cc => cc | None => "*?" end))
       = Raise e.
Proof.
  unfold Main.main, Main.parse_args. cbn [Main.domain Main.censored].
  change Main.DEFAULT with "*?".
  destruct (DomainFinder_load_default_raises json_loads open_default_domains
              (AStr (match censored with Some cc => cc | None => "*?" end)))
    as [e He].
  exists e. unfold emdofi_match. by rewrite He.
Qed.
